(** * Sverchok nodes: bevel a curve, split mesh elements, evaluate a vector field

    A shallow embedding of three node implementations:
    - [nodes/modifier_make/bevel_curve.py]      (module [BevelCurve]),
    - [nodes/modifier_change/split_mesh_elements.py] (module [SplitMesh]),
    - [nodes/field/vector_field_eval.py]        (module [VectorFieldEval]).

    Python floats are idealised as real numbers; Python exceptions are
    values of [exn] carried by the [result] monad; Python list subscripts
    keep their wrap-around for negative indices. *)

From Stdlib Require Import Rbase Rbasic_fun R_sqrt Rtrigo_def Lra.
From stdpp Require Import gmap strings list.

(** ** Exceptions and the result monad *)

Inductive exn :=
  | InvalidInput                 (* too few control points for a spline *)
  | ValueError
  | TypeError
  | IndexError
  | ZeroDivisionError
  | Exception (msg : string).    (* raise Exception(msg) *)

Inductive result (A : Type) :=
  | Ok (a : A)
  | Raise (e : exn).
Arguments Ok {A} a.
Arguments Raise {A} e.

#[global] Instance result_ret : MRet result := @Ok.
#[global] Instance result_bind : MBind result := fun A B f m =>
  match m with Ok a => f a | Raise e => Raise e end.

(** [for x in xs: acc = body(acc, x)] with exceptions leaving the loop. *)
Fixpoint for_each {S X} (body : S → X → result S) (xs : list X) (s : S)
  : result S :=
  match xs with
  | [] => Ok s
  | x :: xs' => s' ← body s x; for_each body xs' s'
  end.

(** [[f(x) for x in xs]] with exceptions leaving the comprehension. *)
Fixpoint comprehension {X Y} (f : X → result Y) (xs : list X)
  : result (list Y) :=
  match xs with
  | [] => Ok []
  | x :: xs' => y ← f x; ys ← comprehension f xs'; Ok (y :: ys)
  end.

(** ** Python subscripts *)

(** [l[i]]: a negative [i] counts from the end, anything outside
    [-len(l) .. len(l)-1] raises IndexError. *)
Definition py_getitem {A} (l : list A) (i : Z) : result A :=
  let j := if (i <? 0)%Z then (i + Z.of_nat (length l))%Z else i in
  if (j <? 0)%Z then Raise IndexError
  else match l !! Z.to_nat j with
       | Some a => Ok a
       | None => Raise IndexError
       end.

(** [o[i]] where [o] may be [None]: subscripting [None] is a TypeError. *)
Definition py_getitem_opt {A} (o : option (list A)) (i : Z) : result A :=
  match o with
  | Some l => py_getitem l i
  | None => Raise TypeError
  end.

(** ** nodes/modifier_make/bevel_curve.py *)

Module BevelCurve.

Open Scope R_scope.

(** *** Vectors (mathutils.Vector of size 3) *)

Record Vector := mkVector { vx : R; vy : R; vz : R }.

(** [v[i]] and [v[i] = a] for the component indices 0, 1, 2 the node
    computes (always reduced modulo 3 in the source). *)
Definition vget (v : Vector) (i : Z) : R :=
  if (i =? 0)%Z then vx v else if (i =? 1)%Z then vy v else vz v.

Definition vset (v : Vector) (i : Z) (a : R) : Vector :=
  if (i =? 0)%Z then mkVector a (vy v) (vz v)
  else if (i =? 1)%Z then mkVector (vx v) a (vz v)
  else mkVector (vx v) (vy v) a.

(** Component indices are closed once the orientation axis is known. *)
Ltac eval_index :=
  repeat match goal with
         | |- context [(?a `mod` 3)%Z] =>
             let v := eval vm_compute in (a `mod` 3)%Z in
             change (a `mod` 3)%Z with v
         end;
  unfold vget, vset; cbn [Z.eqb Pos.eqb vx vy vz].

Definition vadd (p q : Vector) : Vector :=
  mkVector (vx p + vx q) (vy p + vy q) (vz p + vz q).
Definition vsub (p q : Vector) : Vector :=
  mkVector (vx p - vx q) (vy p - vy q) (vz p - vz q).
Definition vscale (a : R) (p : Vector) : Vector :=
  mkVector (a * vx p) (a * vy p) (a * vz p).

(** [v.length] *)
Definition vlength (v : Vector) : R :=
  sqrt (vx v * vx v + vy v * vy v + vz v * vz v).

(** *** Enumerated node properties *)

Inductive Axis := AxisX | AxisY | AxisZ.
Inductive Mode := SPL | LIN.
Inductive Metric := MANHATTAN | DISTANCE | POINTS | CHEBYSHEV.
Inductive TaperMetric := SAME | AXIS.

(** The [metric] argument of a spline constructor: one of the four
    metric tokens, or an axis letter (the taper spline passes
    [self.orient_axis]). *)
Inductive KnotMetric := ByMetric (m : Metric) | ByAxis (a : Axis).

(** The node's properties.  [algorithm] stays the raw token: [get_matrix]
    has its own fallback branch for tokens it does not know. *)
Record Node := {
  algorithm : string;
  orient_axis : Axis;
  up_axis : Axis;
  bevel_mode : Mode;
  taper_mode : Mode;
  twist_mode : Mode;
  metric : Metric;
  taper_metric : TaperMetric;
  is_cyclic : bool;
  tangent_precision : R;
  flip_curve : bool;
  flip_taper : bool;
  flip_twist : bool;
  cap_start : bool;
  cap_end : bool;
  separate_scale : bool;
}.

(** ['XYZ'.index(self.orient_axis)] *)
Definition orient_axis_idx (self : Node) : Z :=
  match orient_axis self with AxisX => 0 | AxisY => 1 | AxisZ => 2 end%Z.

(** *** Splines (sverchok.utils.geom) *)

Inductive SplineKind := Linear | Cubic.

Record Spline := {
  spl_kind : SplineKind;
  spl_pts : list Vector;
  spl_metric : KnotMetric;
  spl_cyclic : bool;
}.

(** Modelled from the spec: the constructors [LinearSpline] and
    [CubicSpline] of sverchok.utils.geom, which is not among the sources.
    Building a spline requires at least two control points and fails with
    InvalidInput otherwise; the spline owns its path, metric, cyclic flag
    and interpolation kind. *)
Definition new_spline (kind : SplineKind) (vertices : list Vector)
    (m : KnotMetric) (cyclic : bool) : result Spline :=
  if (length vertices <? 2)%nat then Raise InvalidInput
  else Ok {| spl_kind := kind; spl_pts := vertices;
             spl_metric := m; spl_cyclic := cyclic |}.

Definition LinearSpline := new_spline Linear.
Definition CubicSpline := new_spline Cubic.

(** Modelled from the spec: distance between consecutive control points
    under the knot metric (PointIndex is uniform index spacing; an axis
    metric measures along that axis). *)
Definition axis_idx (a : Axis) : Z :=
  match a with AxisX => 0 | AxisY => 1 | AxisZ => 2 end%Z.

Definition knot_distance (m : KnotMetric) (p q : Vector) : R :=
  let d := vsub q p in
  match m with
  | ByMetric MANHATTAN => Rabs (vx d) + Rabs (vy d) + Rabs (vz d)
  | ByMetric DISTANCE => vlength d
  | ByMetric POINTS => 1
  | ByMetric CHEBYSHEV => Rmax (Rabs (vx d)) (Rmax (Rabs (vy d)) (Rabs (vz d)))
  | ByAxis a => Rabs (vget d (axis_idx a))
  end.

(** Modelled from the spec: cumulative distance along the control points,
    starting from [acc]. *)
Fixpoint cumulative (m : KnotMetric) (acc : R) (pts : list Vector) : list R :=
  match pts with
  | [] => []
  | p :: pts' =>
      acc :: match pts' with
             | [] => []
             | q :: _ => cumulative m (acc + knot_distance m p q) pts'
             end
  end.

(** Modelled from the spec: knot parameters, the cumulative distances
    normalised to span [0,1]. *)
Definition create_knots (m : KnotMetric) (pts : list Vector) : list R :=
  let cs := cumulative m 0 pts in
  let total := List.last cs 0 in
  map (fun c => c / total) cs.

(** Modelled from the spec: linear interpolation of position by the local
    fraction [f]. *)
Definition lerp (p q : Vector) (f : R) : Vector :=
  vadd p (vscale f (vsub q p)).

(** Modelled from the spec: evaluation of a linear spline.  For [t]
    between knot [i] and knot [i+1] the position is interpolated linearly
    by the local fraction; the last segment takes whatever lies beyond. *)
Fixpoint linear_eval (knots : list R) (pts : list Vector) (t : R) : Vector :=
  match knots, pts with
  | k1 :: knots', p1 :: pts' =>
      match knots', pts' with
      | k2 :: knots'', p2 :: _ =>
          match knots'' with
          | [] => lerp p1 p2 ((t - k1) / (k2 - k1))
          | _ :: _ =>
              if Rle_dec t k2 then lerp p1 p2 ((t - k1) / (k2 - k1))
              else linear_eval knots' pts' t
          end
      | _, _ => p1
      end
  | _, _ => mkVector 0 0 0
  end.

(** Modelled from the spec: the control points a spline interpolates; a
    cyclic spline includes the closing segment back to the first point. *)
Definition spline_path (s : Spline) : list Vector :=
  if spl_cyclic s then spl_pts s ++ take 1 (spl_pts s) else spl_pts s.

(** *** Host primitives

    Operations of mathutils ([Matrix]) and of the parts of
    sverchok.utils that are not among the sources and that the spec does
    not pin down numerically: the rotations behind the three strategies,
    the cubic interpolant, the finite-difference tangent and the edge
    extraction from polygons.  They are total functions of their
    arguments; [to_track_quat] is asked for two different axes only. *)
Class Host := {
  Matrix : Type;
  Matrix_Scale : R → Vector → Matrix;         (* Matrix.Scale(f, 4, axis) *)
  Matrix_Rotation : R → Vector → Matrix;      (* Matrix.Rotation(a, 4, axis) *)
  matmul : Matrix → Matrix → Matrix;          (* A @ B *)
  matvec : Matrix → Vector → Vector;          (* A @ v *)
  inverted : Matrix → Matrix;                 (* A.inverted() *)
  autorotate_householder : Vector → Vector → Matrix;
  to_track_quat : Vector → Axis → Axis → Matrix; (* v.to_track_quat(track, up) *)
  autorotate_diff : Vector → Vector → Matrix;
  cubic_eval : list Vector → KnotMetric → bool → R → Vector;
  spline_tangent : Spline → R → R → Vector;   (* tangent at t with step h *)
  polygons_to_edges : list (list Z) → list (Z * Z);
}.

Section Node.
Context `{Host}.

(** Modelled from the spec: [spline.eval] at one parameter value (the
    sources call it on an array of values, one result per value).  The
    linear spline is the one above; the cubic one is the host's. *)
Definition spline_eval (s : Spline) (t : R) : Vector :=
  match spl_kind s with
  | Linear =>
      linear_eval (create_knots (spl_metric s) (spline_path s)) (spline_path s) t
  | Cubic => cubic_eval (spl_pts s) (spl_metric s) (spl_cyclic s) t
  end.

(** [build_spline(path, mode, is_cyclic, metric=None)] *)
Definition build_spline (self : Node) (path : list Vector) (mode : Mode)
    (cyclic : bool) (m : option KnotMetric) : result Spline :=
  let m := match m with None => ByMetric (metric self) | Some m => m end in
  match mode with
  | LIN => LinearSpline path m cyclic
  | SPL => CubicSpline path m cyclic
  end.

(** [make_taper_spline(vertices)] *)
Definition make_unit (self : Node) (z : R) : Vector :=
  let u := mkVector 0 0 0 in
  let u := vset u (orient_axis_idx self) z in
  vset u ((orient_axis_idx self + 1) mod 3) 1.

Definition make_taper_spline (self : Node) (vertices : list Vector)
  : result Spline :=
  let m := match taper_metric self with
           | SAME => ByMetric (metric self)
           | AXIS => ByAxis (orient_axis self)
           end in
  if (length vertices =? 0)%nat then
    LinearSpline [make_unit self 0; make_unit self 1] m false
  else build_spline self vertices (taper_mode self) false (Some m).

(** Twist data: each entry is a (parameter, angle) pair or a bare angle. *)
Inductive TwistItem := TwistPair (t angle : R) | TwistAngle (angle : R).

(** [range(n)] as floats and [i / (n-1)]: true division raises when the
    divisor is zero. *)
Definition py_div (a b : Z) : result R :=
  if (b =? 0)%Z then Raise ZeroDivisionError else Ok (IZR a / IZR b).

(** [make_twist_spline(data)] *)
Definition make_twist_spline (self : Node) (data : option (list TwistItem))
  : result Spline :=
  match data with
  | None | Some [] =>
      LinearSpline [mkVector 0 0 0; mkVector 0 0 1]
                   (ByMetric (metric self)) (is_cyclic self)
  | Some ((TwistPair _ _ :: _) as data) =>
      (* for t, twist in data: a bare number cannot be unpacked *)
      vertices ← comprehension (fun item =>
          match item with
          | TwistPair t twist => Ok (mkVector twist 0 t)
          | TwistAngle _ => Raise TypeError
          end) data;
      build_spline self vertices (twist_mode self) (is_cyclic self)
                   (Some (ByMetric (metric self)))
  | Some ((TwistAngle _ :: _) as data) =>
      let n := Z.of_nat (length data) in
      ts ← comprehension (fun i => py_div i (n - 1)) (seqZ 0 n);
      (* Vector((twist, 0, t)): a pair is not a number *)
      vertices ← comprehension (fun '(t, item) =>
          match item with
          | TwistAngle twist => Ok (mkVector twist 0 t)
          | TwistPair _ _ => Raise TypeError
          end) (zip ts data);
      build_spline self vertices (twist_mode self) (is_cyclic self)
                   (Some (ByMetric (metric self)))
  end.

(** Modelled from the spec: [autorotate_track(e1, xx, up)] of
    sverchok.utils.geom, which is not among the sources: the quaternion
    look-at with the orientation axis as forward and the up axis as the
    secondary constraint, [xx.to_track_quat(e1, up)] of mathutils as a
    matrix.  The look-at needs two different axes: mathutils raises
    ValueError when the track axis and the up axis are the same. *)
Definition Axis_eqb (a b : Axis) : bool :=
  match a, b with
  | AxisX, AxisX | AxisY, AxisY | AxisZ, AxisZ => true
  | _, _ => false
  end.

Definition autorotate_track (e1 : Axis) (xx : Vector) (up : Axis)
  : result Matrix :=
  if Axis_eqb e1 up then Raise ValueError else Ok (to_track_quat xx e1 up).

(** [get_matrix(tangent, twist_value, scale_x, scale_y)] *)
Definition get_matrix (self : Node) (tangent : Vector)
    (twist_value scale_x scale_y : R) : result Matrix :=
  let x := mkVector 1 0 0 in
  let y := mkVector 0 1 0 in
  let z := mkVector 0 0 1 in
  let '(ax1, ax2, ax3) :=
    if (orient_axis_idx self =? 0)%Z then (x, y, z)
    else if (orient_axis_idx self =? 1)%Z then (y, x, z)
    else (z, x, y) in
  let scale_matrix :=
    matmul (matmul (Matrix_Scale 1 ax1) (Matrix_Scale scale_x ax2))
           (Matrix_Scale scale_y ax3) in
  let twist_matrix := Matrix_Rotation twist_value ax1 in
  rot ← (if String.eqb (algorithm self) "householder" then
           Ok (inverted (autorotate_householder ax1 tangent))
         else if String.eqb (algorithm self) "track" then
           autorotate_track (orient_axis self) tangent (up_axis self)
         else if String.eqb (algorithm self) "diff" then
           Ok (autorotate_diff tangent ax1)
         else Raise (Exception "Unsupported algorithm"));
  Ok (matmul (matmul rot scale_matrix) twist_matrix).

(** [get_taper_scale(vertex)] *)
Definition get_taper_scale (self : Node) (vertex : Vector) : R * R :=
  let projection := vertex in
  if separate_scale self then
    (Rabs (vget projection ((orient_axis_idx self + 1) mod 3)),
     Rabs (vget projection ((orient_axis_idx self - 1) mod 3)))
  else
    let projection := vset projection (orient_axis_idx self) 0 in
    (vlength projection, vlength projection).

(** [get_twist_value(vertex)] *)
Definition get_twist_value (vertex : Vector) : R := vx vertex.

(** *** The mesh under construction

    The bmesh the node fills is recorded the way the spec describes its
    sweep mesh: the vertex list and the face list, each in creation
    order.  A vertex handle is the index the vertex gets from
    [mesh.verts.index_update()], its position in creation order.  Every
    [mesh.verts.new] call and every [mesh.faces.new] call that the host
    accepts is one entry. *)
Record BMesh := { verts : list Vector; faces : list (list nat) }.

Definition bmesh_new : BMesh := {| verts := []; faces := [] |}.

(** [mesh.verts.new(co)] returns the new vertex. *)
Definition verts_new (mesh : BMesh) (co : Vector) : BMesh * nat :=
  ({| verts := verts mesh ++ [co]; faces := faces mesh |}, length (verts mesh)).

(** A face [g] of the mesh that has the vertices [vs] and no others. *)
Definition same_verts (vs g : list nat) : Prop :=
  length g = length vs ∧ Forall (fun v => v ∈ g) vs.

#[global] Instance same_verts_dec (vs g : list nat) : Decision (same_verts vs g) :=
  (_ : Decision (length g = length vs ∧ Forall (fun v => v ∈ g) vs)).

(** [mesh.faces.new(vs)].  The bmesh of the host takes a face of three
    vertices or more (TypeError for a shorter sequence), in which no
    vertex comes twice, and whose vertices are not those of a face the
    mesh has already (ValueError in both cases). *)
Definition faces_new (mesh : BMesh) (vs : list nat) : result BMesh :=
  if bool_decide (length vs < 3)%nat then Raise TypeError
  else if bool_decide (NoDup vs) then
    if bool_decide (Exists (same_verts vs) (faces mesh))
    then Raise ValueError
    else Ok {| verts := verts mesh; faces := faces mesh ++ [vs] |}
  else Raise ValueError.

(** [np.linspace(0.0, 1.0, num=num)] *)
Definition linspace (num : Z) : result (list R) :=
  if (num <? 0)%Z then Raise ValueError
  else if (num =? 1)%Z then Ok [0]
  else Ok (map (fun i => IZR i / IZR (num - 1)) (seqZ 0 num)).

(** One sampled station: position, tangent, taper scales, twist angle. *)
Definition Station : Type := Vector * Vector * (R * R) * R.

(** The loop state of [make_bevel]: the mesh, [prev_level_vertices] and
    [first_level_vertices]. *)
Definition SweepState : Type := BMesh * option (list nat) * option (list nat).

(** Lines 315-317: one new ring of vertices. *)
Definition add_level (matrix : Matrix) (spline_vertex : Vector)
    (bevel_verts : list Vector) (mesh : BMesh) : BMesh * list nat :=
  fold_left (fun '(mesh, level_vertices) bevel_vertex =>
      let new_vertex := vadd (matvec matrix bevel_vertex) spline_vertex in
      let '(mesh, v) := verts_new mesh new_vertex in
      (mesh, level_vertices ++ [v]))
    bevel_verts (mesh, []).

(** Lines 319-324: stitch the previous ring to the current one. *)
Definition stitch (prev_level_vertices level_vertices : list nat)
    (bevel_edges : list (Z * Z)) (mesh : BMesh) : result BMesh :=
  for_each (fun mesh '(i, j) =>
      v1 ← py_getitem prev_level_vertices i;
      v2 ← py_getitem level_vertices i;
      v3 ← py_getitem level_vertices j;
      v4 ← py_getitem prev_level_vertices j;
      faces_new mesh [v4; v3; v2; v1])
    bevel_edges mesh.

(** Lines 310-328: the body of the loop over stations. *)
Definition sweep_step (self : Node) (bevel_verts : list Vector)
    (bevel_edges : list (Z * Z)) (st : SweepState) (station : Station)
  : result SweepState :=
  let '(mesh, prev_level_vertices, first_level_vertices) := st in
  let '(spline_vertex, tangent, (scale_x, scale_y), twist_value) := station in
  matrix ← get_matrix self tangent twist_value scale_x scale_y;
  let '(mesh, level_vertices) := add_level matrix spline_vertex bevel_verts mesh in
  mesh ← match prev_level_vertices with
         | Some prev => stitch prev level_vertices bevel_edges mesh
         | None => Ok mesh
         end;
  let first_level_vertices :=
    match first_level_vertices with
    | None => Some level_vertices
    | Some first => Some first
    end in
  Ok (mesh, Some level_vertices, first_level_vertices).

(** Lines 331-344: the caps of a non-cyclic sweep.  [reversed(None)] and
    [None[i]] are TypeErrors. *)
Definition cap_with (ring : option (list nat)) (bevel_faces : list (list Z))
    (backwards : bool) (mesh : BMesh) : result BMesh :=
  match bevel_faces with
  | [] =>
      match ring with
      | Some vs => faces_new mesh (if backwards then rev vs else vs)
      | None => Raise TypeError
      end
  | _ :: _ =>
      for_each (fun mesh face =>
          cap ← comprehension (py_getitem_opt ring)
                              (if backwards then rev face else face);
          faces_new mesh cap)
        bevel_faces mesh
  end.

(** Lines 346-351: the closing stitch of a cyclic sweep. *)
Definition close_loop (first_level_vertices prev_level_vertices : option (list nat))
    (bevel_edges : list (Z * Z)) (mesh : BMesh) : result BMesh :=
  for_each (fun mesh '(i, j) =>
      v1 ← py_getitem_opt first_level_vertices i;
      v2 ← py_getitem_opt prev_level_vertices i;
      v3 ← py_getitem_opt prev_level_vertices j;
      v4 ← py_getitem_opt first_level_vertices j;
      faces_new mesh [v1; v2; v3; v4])
    bevel_edges mesh.

(** Lines 302-305: the profile edges the sweep stitches along.  The face
    list is typed at nesting level 2, where [ensure_nesting_level] leaves
    it as it is. *)
Definition profile_edges (bevel_edges : list (Z * Z))
    (bevel_faces : list (list Z)) : list (Z * Z) :=
  match bevel_edges, bevel_faces with
  | [], _ :: _ => polygons_to_edges bevel_faces
  | _, _ => bevel_edges
  end.

(** Lines 281-300: the parameter samples and the stations. *)
Definition sample_stations (self : Node) (spline taper twist : Spline)
    (steps : Z) : result (list Station) :=
  t_values ← linspace steps;
  let t_values := if is_cyclic self then removelast t_values else t_values in
  let flip (b : bool) := if b then map (fun t => 1 - t) t_values else t_values in
  let t_for_curve := flip (flip_curve self) in
  let t_for_taper := flip (flip_taper self) in
  let t_for_twist := flip (flip_twist self) in
  let spline_vertices := map (spline_eval spline) t_for_curve in
  let spline_tangents :=
    map (spline_tangent spline (tangent_precision self)) t_for_curve in
  let taper_values :=
    map (get_taper_scale self) (map (spline_eval taper) t_for_taper) in
  let twist_values := map get_twist_value (map (spline_eval twist) t_for_twist) in
  Ok (zip (zip (zip spline_vertices spline_tangents) taper_values) twist_values).

(** [make_bevel(curve, bevel_verts, bevel_edges, bevel_faces, taper, twist, steps)] *)
Definition make_bevel (self : Node) (curve bevel_verts : list Vector)
    (bevel_edges : list (Z * Z)) (bevel_faces : list (list Z))
    (taper twist : Spline) (steps : Z) : result BMesh :=
  spline ← build_spline self curve (bevel_mode self) (is_cyclic self) None;
  stations ← sample_stations self spline taper twist steps;
  let bevel_edges := profile_edges bevel_edges bevel_faces in
  '(mesh, prev_level_vertices, first_level_vertices) ←
    for_each (sweep_step self bevel_verts bevel_edges) stations
             (bmesh_new, None, None);
  if negb (is_cyclic self) then
    mesh ← (if cap_start self
            then cap_with first_level_vertices bevel_faces true mesh
            else Ok mesh);
    if cap_end self && bool_decide (is_Some prev_level_vertices)
    then cap_with prev_level_vertices bevel_faces false mesh
    else Ok mesh
  else
    close_loop first_level_vertices prev_level_vertices bevel_edges mesh.

(** One evaluation of the node for one batch item (lines 381-383). *)
Definition bevel_item (self : Node) (curve bevel_verts : list Vector)
    (bevel_edges : list (Z * Z)) (bevel_faces : list (list Z))
    (taper_verts : list Vector) (twist_data : option (list TwistItem))
    (steps : Z) : result BMesh :=
  taper ← make_taper_spline self taper_verts;
  twist ← make_twist_spline self twist_data;
  make_bevel self curve bevel_verts bevel_edges bevel_faces taper twist steps.

End Node.

(** *** Example data *)

(** The node with every property at the default the source declares. *)
Definition default_node : Node := {|
  algorithm := "householder";
  orient_axis := AxisZ;
  up_axis := AxisX;
  bevel_mode := SPL;
  taper_mode := SPL;
  twist_mode := LIN;
  metric := DISTANCE;
  taper_metric := AXIS;
  is_cyclic := false;
  tangent_precision := 1 / 1000;
  flip_curve := false;
  flip_taper := false;
  flip_twist := false;
  cap_start := false;
  cap_end := false;
  separate_scale := false;
|}.

(** The evenly spaced parameters [i / (n-1)], counted from [k]. *)
Definition even_param (d : Z) (i : Z) : R := IZR i / IZR d.

(** *** The per-station frame *)

(** The algorithm tokens the node declares (lines 35-39). *)
Definition algorithms : list string := ["householder"; "track"; "diff"].

(** The configurations for which the frame is defined: a known token
    and, for track, an up axis other than the orientation axis. *)
Definition frame_defined (self : Node) : Prop :=
  algorithm self ∈ algorithms ∧
  (algorithm self = "track" → orient_axis self ≠ up_axis self).

(** *** The shape of the swept mesh *)

(** The vertex handles of ring [r] of a profile of [k] vertices. *)
Definition ring (k r : nat) : list nat := seq (r * k) k.

(** [vs[i]] for an index known to be in range. *)
Definition at_index (vs : list nat) (i : Z) : nat := nth (Z.to_nat i) vs 0%nat.

(** The quad stitched along profile edge [(i, j)] between two rings. *)
Definition quad (prev cur : list nat) (e : Z * Z) : list nat :=
  [at_index prev e.2; at_index cur e.2; at_index cur e.1; at_index prev e.1].

(** The quad that closes a cyclic sweep along profile edge [(i, j)]. *)
Definition closing_quad (first last : list nat) (e : Z * Z) : list nat :=
  [at_index first e.1; at_index last e.1; at_index last e.2; at_index first e.2].

(** All stitches between [m] consecutive rings, in creation order. *)
Definition sweep_quads (k : nat) (edges : list (Z * Z)) (m : nat)
  : list (list nat) :=
  flat_map (fun r => map (quad (ring k r) (ring k (S r))) edges) (seq 0 (m - 1)).

(** The cap faces built on one ring. *)
Definition cap_faces (vs : list nat) (bevel_faces : list (list Z))
    (backwards : bool) : list (list nat) :=
  match bevel_faces with
  | [] => [if backwards then rev vs else vs]
  | _ :: _ =>
      map (fun face => map (at_index vs) (if backwards then rev face else face))
          bevel_faces
  end.

(** Profile edges and faces that refer to the [k] profile vertices. *)
Definition valid_index (k : nat) (i : Z) : Prop := (0 ≤ i < Z.of_nat k)%Z.
Definition valid_edges (k : nat) (edges : list (Z * Z)) : Prop :=
  Forall (fun e => valid_index k e.1 ∧ valid_index k e.2) edges.
Definition valid_faces (k : nat) (bevel_faces : list (list Z)) : Prop :=
  Forall (Forall (valid_index k)) bevel_faces.

(** The two ends of a profile edge, the smaller one first. *)
Definition edge_ends (e : Z * Z) : Z * Z := (Z.min e.1 e.2, Z.max e.1 e.2).

(** Profile edges the mesh takes a quad along: each joins two different
    profile vertices, and no two of them join the same two. *)
Definition proper_edges (k : nat) (edges : list (Z * Z)) : Prop :=
  valid_edges k edges ∧
  Forall (fun e => e.1 ≠ e.2) edges ∧
  NoDup (map edge_ends edges).

(** The edges of a closed ring of [k] profile vertices. *)
Definition ring_edges (k : nat) : list (Z * Z) :=
  map (fun i => (i, (i + 1) `mod` Z.of_nat k)%Z) (seqZ 0 (Z.of_nat k)).

(** The stitches the station loop adds over [n] further stations, when
    the next vertex handle is [base] and [prev] is the ring before it. *)
Fixpoint loop_faces (k : nat) (edges : list (Z * Z)) (prev : option (list nat))
    (base n : nat) : list (list nat) :=
  match n with
  | O => []
  | S n' =>
      match prev with
      | Some p => map (quad p (seq base k)) edges
      | None => []
      end ++ loop_faces k edges (Some (seq base k)) (base + k) n'
  end.

(** How many stations a sweep samples: a cyclic sweep drops the last. *)
Definition station_count (self : Node) (steps : Z) : nat :=
  if is_cyclic self then (Z.to_nat steps - 1)%nat else Z.to_nat steps.

(** Every face of the mesh refers to vertices of the mesh. *)
Definition faces_in_range (mesh : BMesh) : Prop :=
  Forall (Forall (fun v => (v < length (verts mesh))%nat)) (faces mesh).

(** A ring kept by the loop, if there is one, is made of vertices of the
    mesh. *)
Definition ring_in_range (mesh : BMesh) (vs : option (list nat)) : Prop :=
  ∀ ring, vs = Some ring → Forall (fun v => (v < length (verts mesh))%nat) ring.

(** The node [self] with its cyclic and cap switches set as given. *)
Definition with_flags (self : Node) (cyclic start_cap end_cap : bool) : Node := {|
  algorithm := algorithm self;
  orient_axis := orient_axis self;
  up_axis := up_axis self;
  bevel_mode := bevel_mode self;
  taper_mode := taper_mode self;
  twist_mode := twist_mode self;
  metric := metric self;
  taper_metric := taper_metric self;
  is_cyclic := cyclic;
  tangent_precision := tangent_precision self;
  flip_curve := flip_curve self;
  flip_taper := flip_taper self;
  flip_twist := flip_twist self;
  cap_start := start_cap;
  cap_end := end_cap;
  separate_scale := separate_scale self;
|}.

(** The node [self] with the track algorithm and the two axes as given. *)
Definition with_track (self : Node) (orient up : Axis) : Node := {|
  algorithm := "track";
  orient_axis := orient;
  up_axis := up;
  bevel_mode := bevel_mode self;
  taper_mode := taper_mode self;
  twist_mode := twist_mode self;
  metric := metric self;
  taper_metric := taper_metric self;
  is_cyclic := is_cyclic self;
  tangent_precision := tangent_precision self;
  flip_curve := flip_curve self;
  flip_taper := flip_taper self;
  flip_twist := flip_twist self;
  cap_start := cap_start self;
  cap_end := cap_end self;
  separate_scale := separate_scale self;
|}.

(** *** An example host and example inputs

    A host in which a transform is the map it induces on vectors.  It
    serves sweeps along the orientation axis, where the three rotation
    strategies have nothing to turn; the cubic interpolant is stood in
    for by the linear one and the tangent by the chord of the path. *)
Definition vdot (p q : Vector) : R := vx p * vx q + vy p * vy q + vz p * vz q.

Definition vcross (p q : Vector) : Vector :=
  mkVector (vy p * vz q - vz p * vy q)
           (vz p * vx q - vx p * vz q)
           (vx p * vy q - vy p * vx q).

Definition example_host : Host := {|
  Matrix := Vector → Vector;
  Matrix_Scale := fun f axis v => vadd v (vscale ((f - 1) * vdot v axis) axis);
  Matrix_Rotation := fun angle axis v =>
    vadd (vadd (vscale (cos angle) v) (vscale (sin angle) (vcross axis v)))
         (vscale ((1 - cos angle) * vdot axis v) axis);
  matmul := fun a b v => a (b v);
  matvec := fun a v => a v;
  inverted := fun a => a;
  autorotate_householder := fun _ _ v => v;
  to_track_quat := fun _ _ _ v => v;
  autorotate_diff := fun _ _ v => v;
  cubic_eval := fun pts m cyclic t =>
    let path := if cyclic then pts ++ take 1 pts else pts in
    linear_eval (create_knots m path) path t;
  spline_tangent := fun s _ _ =>
    vsub (List.last (spl_pts s) (mkVector 0 0 0)) (hd (mkVector 0 0 0) (spl_pts s));
  polygons_to_edges := fun polygons =>
    flat_map (fun face => zip face (drop 1 face ++ take 1 face)) polygons;
|}.

(** The splines the node synthesizes when no taper and no twist are given
    (with the default properties). *)
Definition default_taper : Spline := {|
  spl_kind := Linear;
  spl_pts := [mkVector 1 0 0; mkVector 1 0 1];
  spl_metric := ByAxis AxisZ;
  spl_cyclic := false;
|}.

Definition default_twist : Spline := {|
  spl_kind := Linear;
  spl_pts := [mkVector 0 0 0; mkVector 0 0 1];
  spl_metric := ByMetric DISTANCE;
  spl_cyclic := false;
|}.

(** The path and the unit square profile of the spec's scenario. *)
Definition straight_path : list Vector := [mkVector 0 0 0; mkVector 0 0 10].

Definition square : list Vector :=
  [mkVector 0 0 0; mkVector 1 0 0; mkVector 1 1 0; mkVector 0 1 0].

End BevelCurve.

(** ** nodes/modifier_change/split_mesh_elements.py *)

Module SplitMesh.

(** Helpers of sverchok.data_structure and sverchok.utils.sv_mesh_utils,
    which are not among the sources: [list(fixed_iter(data, n))] and
    [polygons_to_edges_np([faces], unique_edges=True)[0]]. *)
Class Utils := {
  fixed_iter : list bool → nat → list bool;
  polygons_to_edges_np : list (list nat) → list (nat * nat);
}.

(** What [split_by_vertices] relies on from them: [fixed_iter] yields
    exactly [n] entries, and the edges of polygons join vertex indices
    that occur in the polygons. *)
Class UtilsSpec `{Utils} : Prop := {
  length_fixed_iter : ∀ data n, length (fixed_iter data n) = n;
  polygons_to_edges_np_ends : ∀ polygons a b,
    (a, b) ∈ polygons_to_edges_np polygons →
    (∃ face, face ∈ polygons ∧ a ∈ face) ∧ (∃ face, face ∈ polygons ∧ b ∈ face);
}.

Section Split.
Context `{Utils} {V : Type}.

(** What the loop over the faces carries along: [out_verts],
    [old_v_indexes] and the dict [old_new_verts]. *)
Record SplitState := {
  out_verts : list V;
  old_v_indexes : list Z;
  old_new_verts : gmap Z nat;
}.

(** What holds of the loop state between any two steps: [old_v_indexes]
    runs along [out_verts] and names, for each copy, the input vertex it
    was copied from; the dict only holds positions already filled. *)
Record split_inv (verts : list V) (st : SplitState) : Prop := {
  inv_length : length (old_v_indexes st) = length (out_verts st);
  inv_origin : ∀ p v, out_verts st !! p = Some v →
    ∃ i, old_v_indexes st !! p = Some i ∧ py_getitem verts i = Ok v;
  inv_dict : map_Forall (fun _ j => (j < length (out_verts st))%nat)
                        (old_new_verts st);
}.

(** Lines 81-92: one vertex index [i] of a face. *)
Definition split_vertex (verts : list V) (selected_verts : list bool)
    (acc : SplitState * list nat) (i : Z) : result (SplitState * list nat) :=
  let '(st, new_face) := acc in
  selected ← py_getitem selected_verts i;
  if (selected : bool) then
    v ← py_getitem verts i;
    let out := out_verts st ++ [v] in
    Ok ({| out_verts := out;
           old_v_indexes := old_v_indexes st ++ [i];
           old_new_verts := old_new_verts st |},
        new_face ++ [(length out - 1)%nat])
  else
    match old_new_verts st !! i with
    | Some j => Ok (st, new_face ++ [j])
    | None =>
        v ← py_getitem verts i;
        let out := out_verts st ++ [v] in
        Ok ({| out_verts := out;
               old_v_indexes := old_v_indexes st ++ [i];
               old_new_verts := <[i := (length out - 1)%nat]> (old_new_verts st) |},
            new_face ++ [(length out - 1)%nat])
    end.

(** Lines 78-93: one face. *)
Definition split_face (verts : list V) (selected_verts : list bool)
    (acc : SplitState * list (list nat)) (face : list Z)
  : result (SplitState * list (list nat)) :=
  let '(st, out_faces) := acc in
  '(st, new_face) ← for_each (split_vertex verts selected_verts) face (st, []);
  Ok (st, out_faces ++ [new_face]).

(** [tuple(sorted(e))] for an edge of two indices. *)
Definition sorted_edge (a b : Z) : Z * Z := (Z.min a b, Z.max a b).

(** [{tuple(sorted(e)): i for i, e in enumerate(edges)}]: a later edge
    with the same key replaces an earlier one. *)
Definition edge_index_map (edges : list (Z * Z)) : gmap (Z * Z) nat :=
  fold_left (fun m '(i, e) => <[sorted_edge e.1 e.2 := i]> m)
            (zip (seq 0 (length edges)) edges) ∅.

(** Lines 95-104: the edges of the split faces and where they come from. *)
Definition split_edges (edges : option (list (Z * Z)))
    (out_faces : list (list nat)) (old_v : list Z)
  : result (list (nat * nat) * list Z) :=
  match edges with
  | Some ((_ :: _) as edges) =>
      let edge_indexes := edge_index_map edges in
      let out_edges := polygons_to_edges_np out_faces in
      old_e_indexes ← comprehension (fun edge : nat * nat =>
          a ← py_getitem old_v (Z.of_nat edge.1);
          b ← py_getitem old_v (Z.of_nat edge.2);
          Ok (match edge_indexes !! sorted_edge a b with
              | Some i => Z.of_nat i
              | None => (-1)%Z
              end)) out_edges;
      Ok (out_edges, old_e_indexes)
  | _ => Ok ([], [])
  end.

(** [split_by_vertices(verts, edges=None, faces=None, selected_verts=None)] *)
Definition split_by_vertices (verts : list V) (edges : option (list (Z * Z)))
    (faces : option (list (list Z))) (selected_verts : option (list bool))
  : result (list V * list (nat * nat) * list (list nat) *
            list Z * list Z * list nat) :=
  let faces := default [] faces in
  let selected_verts :=
    match selected_verts with
    | None | Some [] => replicate (length verts) true
    | Some sel =>
        if bool_decide (length sel ≠ length verts)
        then fixed_iter sel (length verts) else sel
    end in
  '(st, out_faces) ←
    for_each (split_face verts selected_verts) faces
             ({| out_verts := []; old_v_indexes := []; old_new_verts := ∅ |}, []);
  '(out_edges, old_e_indexes) ← split_edges edges out_faces (old_v_indexes st);
  let old_f_indexes := seq 0 (length faces) in
  Ok (out_verts st, out_edges, out_faces, old_v_indexes st, old_e_indexes,
      old_f_indexes).

End Split.

(** An index a Python subscript of a list of [n] entries accepts. *)
Definition py_index (n : nat) (i : Z) : Prop := (- Z.of_nat n ≤ i < Z.of_nat n)%Z.

(** *** Example helpers *)

(** The first [n] entries of [data], the last one repeated when [data] is
    shorter. *)
Definition pad_or_cut (data : list bool) (n : nat) : list bool :=
  take n (data ++ replicate n (List.last data false)).

(** The sides of each polygon, in order, the closing one included. *)
Definition polygon_sides (polygons : list (list nat)) : list (nat * nat) :=
  flat_map (fun face => zip face (drop 1 face ++ take 1 face)) polygons.

Definition example_utils : Utils := {|
  fixed_iter := pad_or_cut;
  polygons_to_edges_np := polygon_sides;
|}.

(** *** The selection and what the dict keeps track of *)

Section Tracking.
Context `{Utils} {V : Type}.

(** Lines 69-72: the selection [split_by_vertices] works with. *)
Definition selection_of (verts : list V) (selected_verts : option (list bool))
  : list bool :=
  match selected_verts with
  | None | Some [] => replicate (length verts) true
  | Some sel =>
      if bool_decide (length sel ≠ length verts)
      then fixed_iter sel (length verts) else sel
  end.

(** The dict [old_new_verts] points at copies of its keys, and every copy
    of a vertex that is not selected is the one the dict points at. *)
Definition split_tracks (selected_verts : list bool) (st : SplitState (V := V))
  : Prop :=
  (∀ i j, old_new_verts st !! i = Some j → old_v_indexes st !! j = Some i) ∧
  (∀ p i, old_v_indexes st !! p = Some i →
          py_getitem selected_verts i = Ok false →
          old_new_verts st !! i = Some p).

(** [old_v_indexes[j] == i] for each corner [i] of a face and its new
    index [j]. *)
Definition corners_from (old_v : list Z) (face : list Z) (new_face : list nat)
  : Prop :=
  Forall2 (fun i j => old_v !! j = Some i) face new_face.

End Tracking.

(** *** The node function *)

(** The six lists [split_by_vertices] and [split_by_edges] return. *)
Definition SplitResult (V : Type) : Type :=
  list V * list (nat * nat) * list (list nat) * list Z * list Z * list nat.

(** Helpers of the node function that are not among the sources or work
    on a bmesh: [mask_converter_node] of
    sverchok.nodes.list_masks.mask_convert, with its three optional masks
    and its mode, and [split_by_edges]. *)
Class NodeUtils (V : Type) := {
  mask_converter_node :
    list V → list (Z * Z) → list (list Z) →
    option (list bool) → option (list bool) → option (list bool) → string →
    result (list bool * list bool * list bool);
  split_by_edges :
    list V → list (Z * Z) → list (list Z) → list bool → result (SplitResult V);
}.

Section SplitNode.
Context `{Utils} {V : Type} `{NodeUtils V}.

(** [split_mesh_elements_node(vertices, edges, faces, face_data, mask,
    mask_mode, split_type)].  The list built from [face_data] is not used
    afterwards and is left out. *)
Definition split_mesh_elements_node (vertices : option (list V))
    (edges : option (list (Z * Z))) (faces : option (list (list Z)))
    (mask : option (list bool)) (mask_mode split_type : string)
  : result (SplitResult V) :=
  match vertices with
  | None | Some [] => Ok ([], [], [], [], [], [])
  | Some ((_ :: _) as vertices) =>
      let edges := default [] edges in
      let faces := default [] faces in
      let mask := default [] mask in
      if String.eqb split_type "VERTS" then
        mask ← (if negb (String.eqb mask_mode "BY_VERTEX") then
                  masks ← mask_converter_node vertices edges faces None
                    (if String.eqb mask_mode "BY_EDGE" then Some mask else None)
                    (if String.eqb mask_mode "BY_FACE" then Some mask else None)
                    mask_mode;
                  Ok masks.1.1
                else Ok mask);
        split_by_vertices vertices (Some edges) (Some faces) (Some mask)
      else if String.eqb split_type "EDGES" then
        mask ← (if negb (String.eqb mask_mode "BY_EDGE") then
                  masks ← mask_converter_node vertices edges faces
                    (if String.eqb mask_mode "BY_VERTEX" then Some mask else None)
                    None
                    (if String.eqb mask_mode "BY_FACE" then Some mask else None)
                    mask_mode;
                  Ok masks.1.2
                else Ok mask);
        split_by_edges vertices edges faces mask
      else Raise TypeError
  end.

End SplitNode.

(** Example helpers for the node function: masks are converted to
    nothing selected, and splitting by edges returns the mesh as it is. *)
Definition example_node_utils (V : Type) : NodeUtils V := {|
  mask_converter_node := fun vertices edges faces _ _ _ _ =>
    Ok (replicate (length vertices) false, replicate (length edges) false,
        replicate (length faces) false);
  split_by_edges := fun verts edges faces _ =>
    Ok (verts,
        map (fun e : Z * Z => (Z.to_nat e.1, Z.to_nat e.2)) edges,
        map (map Z.to_nat) faces,
        map Z.of_nat (seq 0 (length verts)),
        map Z.of_nat (seq 0 (length edges)),
        seq 0 (length faces));
|}.

End SplitMesh.

(** ** nodes/field/vector_field_eval.py *)

Module VectorFieldEval.

Open Scope R_scope.

(** A vector field, by the two methods the node calls. *)
Record VectorField := {
  evaluate : R → R → R → R * R * R;
  evaluate_grid : list R → list R → list R → list R * list R * list R;
}.

(** An entry of a Python list of vectors: a tuple or a list of three. *)
Inductive Item := PyTuple (x y z : R) | PyList (x y z : R).

(** What the node puts out for one batch: a Python list, or the NumPy
    array of shape (1, N, 3) that [np.dstack] builds. *)
Inductive Values :=
  | ValueList (items : list Item)
  | NdArray (planes : list (list (R * R * R))).

(** [np.dstack((xs, ys, zs))] of three one-dimensional arrays; arrays of
    different lengths do not stack. *)
Definition dstack (xs ys zs : list R) : result (list (list (R * R * R))) :=
  if (length xs =? length ys)%nat && (length ys =? length zs)%nat
  then Ok [zip (zip xs ys) zs]
  else Raise ValueError.

(** [tuple(value)] for [value] the field evaluated at the coordinates of
    [vertex]. *)
Definition evaluate_point (field : VectorField) (vertex : R * R * R) : Item :=
  let '(x, y, z) := vertex in
  let '(a, b, c) := evaluate field x y z in
  PyTuple a b c.

(** Lines 48-61: the values for one batch. *)
Definition evaluate_vertices (output_numpy : bool) (field : VectorField)
    (vertices : list (R * R * R)) : result Values :=
  if (length vertices =? 0)%nat then Ok (ValueList [])
  else if (length vertices =? 1)%nat then
    vertex ← py_getitem vertices 0;
    Ok (ValueList [evaluate_point field vertex])
  else
    let xs := map (fun v => v.1.1) vertices in
    let ys := map (fun v => v.1.2) vertices in
    let zs := map (fun v => v.2) vertices in
    let '(new_xs, new_ys, new_zs) := evaluate_grid field xs ys zs in
    new_vectors ← dstack new_xs new_ys new_zs;
    if output_numpy then Ok (NdArray new_vectors)
    else
      plane ← py_getitem new_vectors 0;
      Ok (ValueList (map (fun '(x, y, z) => PyList x y z) plane)).

Section Process.
(** [zip_long_repeat] of sverchok.data_structure, not among the sources. *)
Variable zip_long_repeat :
  list VectorField → list (list (R * R * R)) →
  list (VectorField * list (R * R * R)).

(** [process()]: nothing is put out while no output socket is linked. *)
Definition process (linked output_numpy : bool) (fields_s : list VectorField)
    (vertices_s : list (list (R * R * R))) : option (result (list Values)) :=
  if negb linked then None
  else Some (comprehension (fun '(field, vertices) =>
                 evaluate_vertices output_numpy field vertices)
               (zip_long_repeat fields_s vertices_s)).

End Process.

(** How many vectors a value holds. *)
Definition values_count (values : Values) : nat :=
  match values with
  | ValueList items => length items
  | NdArray planes => length (concat planes)
  end.

(** A field whose [evaluate_grid] returns three arrays as long as the
    three it is given. *)
Definition grid_keeps_length (field : VectorField) : Prop :=
  ∀ xs ys zs : list R,
    length xs = length ys → length ys = length zs →
    length (evaluate_grid field xs ys zs).1.1 = length xs ∧
    length (evaluate_grid field xs ys zs).1.2 = length xs ∧
    length (evaluate_grid field xs ys zs).2 = length xs.

(** *** Example data *)

(** The field that maps every point to itself. *)
Definition identity_field : VectorField := {|
  evaluate := fun x y z => (x, y, z);
  evaluate_grid := fun xs ys zs => (xs, ys, zs);
|}.

(** The field that turns the coordinates: (x, y, z) goes to (y, z, x). *)
Definition turning_field : VectorField := {|
  evaluate := fun x y z => (y, z, x);
  evaluate_grid := fun xs ys zs => (ys, zs, xs);
|}.

End VectorFieldEval.

(** * Properties *)

(** ** Python subscripts and comprehensions *)

Lemma py_getitem_lookup {A} (l : list A) (i : nat) (a : A) :
  l !! i = Some a → py_getitem l (Z.of_nat i) = Ok a.
Proof.
  intros Hl. unfold py_getitem.
  destruct (Z.ltb_spec (Z.of_nat i) 0) as [?|_]; [lia|].
  destruct (Z.ltb_spec (Z.of_nat i) 0) as [?|_]; [lia|].
  by rewrite Nat2Z.id, Hl.
Qed.

Lemma py_getitem_in_range {A} (l : list A) (i : Z) :
  (0 ≤ i < Z.of_nat (length l))%Z →
  ∃ a, l !! Z.to_nat i = Some a ∧ py_getitem l i = Ok a.
Proof.
  intros Hi.
  destruct (lookup_lt_is_Some_2 l (Z.to_nat i)) as [a Ha]; [lia|].
  exists a. split; [done|].
  rewrite <- (Z2Nat.id i) by lia. by apply py_getitem_lookup.
Qed.

Lemma comprehension_ok {X Y} (f : X → result Y) (g : X → Y) (xs : list X) :
  Forall (fun x => f x = Ok (g x)) xs →
  comprehension f xs = Ok (map g xs).
Proof.
  induction 1 as [|x xs Hx _ IH]; [done|].
  cbn. rewrite Hx. cbn. rewrite IH. done.
Qed.

(** What can be read back from a subscript and from a loop that came to
    its end or was left by an exception. *)

Lemma bind_Ok_inv {A B} (m : result A) (f : A → result B) (b : B) :
  m ≫= f = Ok b → ∃ a, m = Ok a ∧ f a = Ok b.
Proof. destruct m as [a|e]; [by exists a|done]. Qed.

Lemma py_getitem_Raise {A} (l : list A) (i : Z) (e : exn) :
  py_getitem l i = Raise e → e = IndexError.
Proof.
  unfold py_getitem. repeat case_match; congruence.
Qed.

Lemma py_getitem_Ok_index {A} (l : list A) (i : Z) (a : A) :
  py_getitem l i = Ok a → SplitMesh.py_index (length l) i.
Proof.
  unfold py_getitem, SplitMesh.py_index. intros Hget.
  destruct (Z.ltb_spec i 0).
  - destruct (Z.ltb_spec (i + Z.of_nat (length l)) 0); [done|]. lia.
  - destruct (Z.ltb_spec i 0); [lia|].
    destruct (l !! Z.to_nat i) eqn:Hl; [|done].
    apply lookup_lt_Some in Hl. lia.
Qed.

Lemma py_getitem_elem {A} (l : list A) (i : Z) (a : A) :
  py_getitem l i = Ok a → a ∈ l.
Proof.
  unfold py_getitem. intros Hget.
  repeat case_match; try done.
  all: injection Hget as <-; by eapply list_elem_of_lookup_2.
Qed.

Lemma for_each_invariant {S X} (P : S → Prop) (body : S → X → result S)
    (xs : list X) (s s' : S) :
  (∀ s x s', P s → body s x = Ok s' → P s') →
  P s → for_each body xs s = Ok s' → P s'.
Proof.
  intros Hbody. revert s. induction xs as [|x xs IH]; intros s Hs Hrun.
  - by injection Hrun as <-.
  - cbn in Hrun. apply bind_Ok_inv in Hrun as (s1 & Hstep & Hrun). eauto.
Qed.

Lemma for_each_Ok_Forall {S X} (P : X → Prop) (body : S → X → result S)
    (xs : list X) (s s' : S) :
  (∀ s x s', body s x = Ok s' → P x) →
  for_each body xs s = Ok s' → Forall P xs.
Proof.
  intros Hbody. revert s. induction xs as [|x xs IH]; intros s Hrun.
  - constructor.
  - cbn in Hrun. apply bind_Ok_inv in Hrun as (s1 & Hstep & Hrun).
    constructor; eauto.
Qed.

Lemma for_each_Raise {S X} (Q : exn → Prop) (body : S → X → result S)
    (xs : list X) (s : S) (e : exn) :
  (∀ s x e, body s x = Raise e → Q e) →
  for_each body xs s = Raise e → Q e.
Proof.
  intros Hbody. revert s. induction xs as [|x xs IH]; intros s Hrun; [done|].
  cbn in Hrun. destruct (body s x) as [s1|e1] eqn:Hstep.
  - by eapply IH.
  - injection Hrun as <-. by eapply Hbody.
Qed.

Lemma comprehension_Raise {X Y} (Q : exn → Prop) (f : X → result Y)
    (xs : list X) (e : exn) :
  (∀ x e, f x = Raise e → Q e) →
  comprehension f xs = Raise e → Q e.
Proof.
  intros Hf. induction xs as [|x xs IH]; intros Hrun; [done|].
  cbn in Hrun. destruct (f x) as [y|e1] eqn:Hx.
  - cbn in Hrun. destruct (comprehension f xs) as [ys|e2]; [done|].
    injection Hrun as <-. by apply IH.
  - injection Hrun as <-. by eapply Hf.
Qed.

Lemma comprehension_Ok_Forall2 {X Y} (f : X → result Y) (xs : list X)
    (ys : list Y) :
  comprehension f xs = Ok ys → Forall2 (fun x y => f x = Ok y) xs ys.
Proof.
  revert ys. induction xs as [|x xs IH]; intros ys Hrun.
  - injection Hrun as <-. constructor.
  - cbn in Hrun. apply bind_Ok_inv in Hrun as (y & Hx & Hrun).
    apply bind_Ok_inv in Hrun as (ys' & Hxs & Hrun). injection Hrun as <-.
    constructor; auto.
Qed.

(** ** Properties of the bevel node *)

Module BevelCurveProps.
Import BevelCurve.
Open Scope R_scope.

(** *** The default taper *)

Section TaperProperties.
Context `{Host}.

Lemma linear_eval_two (k1 k2 : R) (p q : Vector) (t : R) :
  linear_eval [k1; k2] [p; q] t = lerp p q ((t - k1) / (k2 - k1)).
Proof. reflexivity. Qed.

Lemma make_taper_spline_default (self : Node) :
  make_taper_spline self [] =
    Ok {| spl_kind := Linear;
          spl_pts := [make_unit self 0; make_unit self 1];
          spl_metric := match taper_metric self with
                        | SAME => ByMetric (metric self)
                        | AXIS => ByAxis (orient_axis self)
                        end;
          spl_cyclic := false |}.
Proof. reflexivity. Qed.

Lemma vget_lerp (p q : Vector) (f : R) (i : Z) :
  vget (lerp p q f) i = vget p i + f * (vget q i - vget p i).
Proof. unfold vget, lerp. repeat case_match; reflexivity. Qed.

Lemma make_unit_next (self : Node) (z : R) :
  vget (make_unit self z) ((orient_axis_idx self + 1) mod 3) = 1.
Proof.
  unfold make_unit, orient_axis_idx.
  destruct (orient_axis self); eval_index; reflexivity.
Qed.

Lemma make_unit_prev (self : Node) (z : R) :
  vget (make_unit self z) ((orient_axis_idx self - 1) mod 3) = 0.
Proof.
  unfold make_unit, orient_axis_idx.
  destruct (orient_axis self); eval_index; reflexivity.
Qed.

(** Along the default taper the two off-axis coordinates never change:
    the one after the orientation axis is 1, the one before it is 0. *)
Lemma default_taper_point (self : Node) (s : Spline) (t : R) :
  make_taper_spline self [] = Ok s →
  vget (spline_eval s t) ((orient_axis_idx self + 1) mod 3) = 1 ∧
  vget (spline_eval s t) ((orient_axis_idx self - 1) mod 3) = 0.
Proof.
  rewrite make_taper_spline_default. intros [= <-].
  unfold spline_eval, spline_path, create_knots.
  cbn [spl_kind spl_pts spl_cyclic spl_metric cumulative List.last map].
  rewrite linear_eval_two, !vget_lerp, !make_unit_next, !make_unit_prev.
  split; ring.
Qed.

(** With [separate_scale] off the scale is the distance of the sampled
    point from the orientation axis. *)
Lemma vlength_off_axis (self : Node) (v : Vector) :
  vget v ((orient_axis_idx self + 1) mod 3) = 1 →
  vget v ((orient_axis_idx self - 1) mod 3) = 0 →
  vlength (vset v (orient_axis_idx self) 0) = 1.
Proof.
  unfold orient_axis_idx, vlength.
  destruct (orient_axis self); eval_index; intros -> ->.
  all: match goal with |- sqrt ?a = _ => replace a with 1 by ring end.
  all: apply sqrt_1.
Qed.

(** C1 (the code at the claim's inputs).  With no taper control points
    the synthesized 2-point spline samples, at every parameter [t], to
    scale_x = 1, and to scale_y = 1 only while [separate_scale] is off:
    with [separate_scale] on, scale_y is 0 for every orientation axis,
    because [make_unit] sets a single off-axis coordinate to 1. *)
Theorem C1_default_taper_scale (self : Node) (t : R) :
  ∃ s, make_taper_spline self [] = Ok s ∧
       get_taper_scale self (spline_eval s t) =
         (1, if separate_scale self then 0 else 1).
Proof.
  eexists. split; [apply make_taper_spline_default|].
  match goal with |- context [spline_eval ?s t] =>
    destruct (default_taper_point self s t (make_taper_spline_default self))
      as [Hnext Hprev]
  end.
  unfold get_taper_scale. destruct (separate_scale self).
  - rewrite Hnext, Hprev, Rabs_R1, Rabs_R0. reflexivity.
  - rewrite vlength_off_axis by assumption. reflexivity.
Qed.

End TaperProperties.

(** *** The twist spline *)

Section TwistProperties.

Lemma twist_params_ok (d k : Z) (len : nat) :
  d ≠ 0%Z →
  comprehension (fun i => py_div i d) (seqZ k (Z.of_nat len)) =
    Ok (map (even_param d) (seqZ k (Z.of_nat len))).
Proof.
  intros Hd. apply comprehension_ok, Forall_forall. intros i _.
  unfold py_div. destruct (Z.eqb_spec d 0); [done|reflexivity].
Qed.

Lemma twist_vertices_of_angles (d k : Z) (angles : list R) :
  comprehension (fun '(t, item) =>
      match item with
      | TwistAngle twist => Ok (mkVector twist 0 t)
      | TwistPair _ _ => Raise TypeError
      end)
    (zip (map (even_param d) (seqZ k (Z.of_nat (length angles))))
         (map TwistAngle angles)) =
  Ok (imap (fun i a => mkVector a 0 (even_param d (k + Z.of_nat i))) angles).
Proof.
  revert k. induction angles as [|a angles IH]; intros k; [done|].
  cbn [length]. rewrite Nat2Z.inj_succ, seqZ_cons by lia.
  rewrite Z.pred_succ. cbn. rewrite IH. cbn.
  rewrite Z.add_0_r. f_equal. f_equal.
  apply imap_ext. intros i x _. cbn. do 2 f_equal. lia.
Qed.

Lemma twist_vertices_of_pairs (d k : Z) (angles : list R) :
  comprehension (fun item =>
      match item with
      | TwistPair t twist => Ok (mkVector twist 0 t)
      | TwistAngle _ => Raise TypeError
      end)
    (imap (fun i a => TwistPair (even_param d (k + Z.of_nat i)) a) angles) =
  Ok (imap (fun i a => mkVector a 0 (even_param d (k + Z.of_nat i))) angles).
Proof.
  revert k. induction angles as [|a angles IH]; intros k; [done|].
  cbn.
  rewrite (imap_ext _ (fun i a => TwistPair (even_param d (Z.succ k + Z.of_nat i)) a) angles)
    by (intros; cbn; do 2 f_equal; lia).
  rewrite IH. cbn. f_equal. f_equal.
  apply imap_ext. intros i x _. cbn. do 2 f_equal. lia.
Qed.

(** C3 (as amended).  A bare sequence of [n >= 2] angles is accepted and
    becomes the control points [(angle_i, 0, i/(n-1))], [i = 0..n-1]; the
    explicit pairs [(i/(n-1), angle_i)] build the very same spline. *)
Theorem C3_bare_angles_evenly_spaced (self : Node) (angles : list R) :
  (2 ≤ length angles)%nat →
  let d := (Z.of_nat (length angles) - 1)%Z in
  ∃ s, make_twist_spline self (Some (map TwistAngle angles)) = Ok s ∧
       spl_pts s =
         imap (fun i a => mkVector a 0 (IZR (Z.of_nat i) / IZR d)) angles ∧
       make_twist_spline self
         (Some (imap (fun i a => TwistPair (IZR (Z.of_nat i) / IZR d) a) angles))
       = Ok s.
Proof.
  intros Hn d.
  destruct angles as [|a0 angles]; [cbn in Hn; lia|].
  set (pts := imap (fun i a => mkVector a 0 (IZR (Z.of_nat i) / IZR d)) (a0 :: angles)).
  assert (Hv : comprehension (fun '(t, item) =>
                  match item with
                  | TwistAngle twist => Ok (mkVector twist 0 t)
                  | TwistPair _ _ => Raise TypeError
                  end)
                (zip (map (even_param d) (seqZ 0 (Z.of_nat (length (a0 :: angles)))))
                     (map TwistAngle (a0 :: angles))) = Ok pts)
    by exact (twist_vertices_of_angles d 0 (a0 :: angles)).
  assert (Hp : comprehension (fun item =>
                  match item with
                  | TwistPair t twist => Ok (mkVector twist 0 t)
                  | TwistAngle _ => Raise TypeError
                  end)
                (imap (fun i a => TwistPair (IZR (Z.of_nat i) / IZR d) a) (a0 :: angles))
               = Ok pts)
    by exact (twist_vertices_of_pairs d 0 (a0 :: angles)).
  pose proof (twist_params_ok d 0 (length (a0 :: angles))) as Ht.
  assert (Hlen : (2 ≤ length pts)%nat) by (subst pts; rewrite length_imap; done).
  assert (Hbuild : ∀ m, ∃ s, new_spline m pts (ByMetric (metric self)) (is_cyclic self) = Ok s
                          ∧ spl_pts s = pts).
  { intros m. unfold new_spline. destruct (Nat.ltb_spec (length pts) 2); [lia|].
    eexists; split; reflexivity. }
  assert (Hs : ∃ s, build_spline self pts (twist_mode self) (is_cyclic self)
                      (Some (ByMetric (metric self))) = Ok s ∧ spl_pts s = pts).
  { unfold build_spline, LinearSpline, CubicSpline. destruct (twist_mode self); apply Hbuild. }
  destruct Hs as (s & Hs & Hpts).
  exists s. split; [|split; [exact Hpts|]].
  - change (map TwistAngle (a0 :: angles)) with (TwistAngle a0 :: map TwistAngle angles).
    cbn [make_twist_spline].
    change (TwistAngle a0 :: map TwistAngle angles) with (map TwistAngle (a0 :: angles)).
    rewrite length_map. fold d.
    rewrite Ht by (subst d; cbn [length] in *; lia). cbn [mbind result_bind].
    rewrite Hv. cbn [mbind result_bind]. exact Hs.
  - cbn [imap]. cbn [make_twist_spline].
    change (TwistPair (IZR (Z.of_nat 0) / IZR d) a0 ::
            imap ((fun i a => TwistPair (IZR (Z.of_nat i) / IZR d) a) ∘ S) angles)
      with (imap (fun i a => TwistPair (IZR (Z.of_nat i) / IZR d) a) (a0 :: angles)).
    rewrite Hp. cbn [mbind result_bind]. exact Hs.
Qed.

(** Two angles, the smallest accepted bare sequence. *)
Lemma C3_bare_angles_witness :
  (2 ≤ length [0; 1])%nat ∧
  ∃ s, make_twist_spline default_node (Some (map TwistAngle [0; 1])) = Ok s ∧
       spl_pts s =
         imap (fun i a => mkVector a 0 (IZR (Z.of_nat i) / IZR (2 - 1))) [0; 1] ∧
       make_twist_spline default_node
         (Some (imap (fun i a => TwistPair (IZR (Z.of_nat i) / IZR (2 - 1)) a) [0; 1]))
       = Ok s.
Proof.
  split; [cbn; lia|].
  apply (C3_bare_angles_evenly_spaced default_node [0; 1]). cbn; lia.
Defined.

(** C3 (as stated, refuted).  A single bare angle is not accepted:
    [i / (n-1)] divides by zero. *)
Lemma C3_single_angle_raises :
  make_twist_spline default_node (Some [TwistAngle 0]) = Raise ZeroDivisionError.
Proof. reflexivity. Qed.

End TwistProperties.

(** *** The per-station frame *)

Section FrameProperties.
Context `{Host}.

Lemma Axis_eqb_eq (a b : Axis) : Axis_eqb a b = true ↔ a = b.
Proof. destruct a, b; cbn; split; congruence. Qed.

(** C8 (as amended).  [get_matrix] raises
    [Exception("Unsupported algorithm")], the configuration error, with
    no transform at all, exactly when the algorithm token is outside
    householder, track, diff.  For a token of that set the configuration
    error is not raised, and a transform is returned unless the token is
    track and the up axis is the orientation axis: the look-at rotation
    is then refused with ValueError. *)
Theorem C8_unknown_algorithm_raises (self : Node) (tangent : Vector)
    (twist_value scale_x scale_y : R) :
  match get_matrix self tangent twist_value scale_x scale_y with
  | Ok _ => frame_defined self
  | Raise e =>
      (e = Exception "Unsupported algorithm" ∧ algorithm self ∉ algorithms) ∨
      (e = ValueError ∧ algorithm self = "track" ∧
       orient_axis self = up_axis self)
  end.
Proof.
  unfold get_matrix, frame_defined, algorithms, autorotate_track.
  destruct (if (orient_axis_idx self =? 0)%Z then _ else _) as [[ax1 ax2] ax3].
  destruct (String.eqb_spec (algorithm self) "householder") as [Hh|Hh]; cbn.
  { rewrite Hh. split; [apply list_elem_of_here|done]. }
  destruct (String.eqb_spec (algorithm self) "track") as [Ht|Ht]; cbn.
  { destruct (Axis_eqb (orient_axis self) (up_axis self)) eqn:Hax; cbn.
    - right. by apply Axis_eqb_eq in Hax.
    - split.
      + rewrite Ht. apply list_elem_of_further, list_elem_of_here.
      + intros _ Heq. apply Axis_eqb_eq in Heq. congruence. }
  destruct (String.eqb_spec (algorithm self) "diff") as [Hd|Hd]; cbn.
  { split; [|done]. rewrite Hd.
    do 2 apply list_elem_of_further. apply list_elem_of_here. }
  left. split; [done|].
  rewrite !elem_of_cons, elem_of_nil. tauto.
Qed.

Lemma get_matrix_defined (self : Node) (tangent : Vector)
    (twist_value scale_x scale_y : R) :
  frame_defined self →
  ∃ matrix, get_matrix self tangent twist_value scale_x scale_y = Ok matrix.
Proof.
  unfold get_matrix, frame_defined, algorithms, autorotate_track.
  rewrite !elem_of_cons, elem_of_nil. intros [Hin Htrack].
  destruct (if (orient_axis_idx self =? 0)%Z then _ else _) as [[ax1 ax2] ax3].
  destruct (String.eqb_spec (algorithm self) "householder"); [by eexists|].
  destruct (String.eqb_spec (algorithm self) "track") as [Ht|Ht].
  { destruct (Axis_eqb (orient_axis self) (up_axis self)) eqn:Hax.
    - apply Axis_eqb_eq in Hax. by destruct (Htrack Ht).
    - by eexists. }
  destruct (String.eqb_spec (algorithm self) "diff"); [by eexists|].
  tauto.
Qed.

End FrameProperties.

(** *** The shape of the swept mesh *)

Section SweepProperties.
Context `{Host}.

Lemma py_getitem_at_index (vs : list nat) (i : Z) :
  valid_index (length vs) i → py_getitem vs i = Ok (at_index vs i).
Proof.
  intros Hi. destruct (py_getitem_in_range vs i Hi) as (a & Ha & ->).
  unfold at_index. f_equal. symmetry. by apply nth_lookup_Some with (d := 0%nat).
Qed.

Lemma add_level_spec (matrix : Matrix) (spline_vertex : Vector)
    (bevel_verts : list Vector) (mesh : BMesh) :
  add_level matrix spline_vertex bevel_verts mesh =
    ({| verts := verts mesh ++
                 map (fun bv => vadd (matvec matrix bv) spline_vertex) bevel_verts;
        faces := faces mesh |},
     seq (length (verts mesh)) (length bevel_verts)).
Proof.
  unfold add_level.
  assert (Hgen : ∀ bvs mesh0 lv,
    fold_left (fun '(mesh, level_vertices) bevel_vertex =>
        let new_vertex := vadd (matvec matrix bevel_vertex) spline_vertex in
        let '(mesh, v) := verts_new mesh new_vertex in
        (mesh, level_vertices ++ [v])) bvs (mesh0, lv) =
    ({| verts := verts mesh0 ++
                 map (fun bv => vadd (matvec matrix bv) spline_vertex) bvs;
        faces := faces mesh0 |},
     lv ++ seq (length (verts mesh0)) (length bvs))).
  { induction bvs as [|bv bvs IH]; intros mesh0 lv.
    - cbn. rewrite !app_nil_r. by destruct mesh0.
    - cbn [fold_left verts_new]. rewrite IH. cbn [verts faces].
      rewrite length_app. cbn [length map seq].
      rewrite <- !app_assoc. cbn [app].
      by rewrite Nat.add_1_r. }
  apply Hgen.
Qed.

(** **** What the mesh takes for a face *)

Lemma faces_new_Ok (mesh mesh' : BMesh) (vs : list nat) :
  faces_new mesh vs = Ok mesh' →
  mesh' = {| verts := verts mesh; faces := faces mesh ++ [vs] |} ∧
  (3 ≤ length vs)%nat ∧ NoDup vs ∧ ¬ Exists (same_verts vs) (faces mesh).
Proof.
  unfold faces_new. intros Hnew.
  destruct (bool_decide_reflect (length vs < 3)%nat); [done|].
  destruct (bool_decide_reflect (NoDup vs)); [|done].
  destruct (bool_decide_reflect (Exists (same_verts vs) (faces mesh))); [done|].
  injection Hnew as <-. split; [done|]. split; [lia|]. by split.
Qed.

Lemma faces_new_accepts (mesh : BMesh) (vs : list nat) :
  (3 ≤ length vs)%nat → NoDup vs →
  Forall (fun g => ¬ same_verts vs g) (faces mesh) →
  faces_new mesh vs = Ok {| verts := verts mesh; faces := faces mesh ++ [vs] |}.
Proof.
  intros Hlen Hnd Hfresh. unfold faces_new.
  rewrite bool_decide_false by lia. rewrite bool_decide_true by done.
  rewrite bool_decide_false; [done|]. by apply Forall_not_Exists.
Qed.

(** A face with a vertex that [vs] lacks is not a face of the vertices
    [vs], and neither is a face that lacks a vertex of [vs]. *)
Lemma same_verts_outside (vs g : list nat) (w : nat) :
  NoDup vs → w ∈ g → w ∉ vs → ¬ same_verts vs g.
Proof.
  intros Hnd Hw Hout [Hlen Hall].
  assert (Hsub : vs ⊆+ g).
  { apply NoDup_submseteq; [done|]. by apply Forall_forall. }
  assert (Hperm : vs ≡ₚ g) by (apply submseteq_length_Permutation; [done|lia]).
  apply Hout. by rewrite Hperm.
Qed.

Lemma same_verts_missing (vs g : list nat) (v : nat) :
  v ∈ vs → v ∉ g → ¬ same_verts vs g.
Proof.
  intros Hv Hout [_ Hall]. rewrite Forall_forall in Hall. by apply Hout, Hall.
Qed.

Lemma at_index_seq (base k : nat) (i : Z) :
  valid_index k i → at_index (seq base k) i = (base + Z.to_nat i)%nat.
Proof.
  intros Hi. unfold at_index. apply nth_lookup_Some, lookup_seq.
  unfold valid_index in Hi. lia.
Qed.

Lemma at_index_elem (vs : list nat) (i : Z) :
  valid_index (length vs) i → at_index vs i ∈ vs.
Proof.
  intros Hi. unfold at_index. apply list_elem_of_In, nth_In.
  unfold valid_index in Hi. lia.
Qed.

Lemma at_index_inj (vs : list nat) (i j : Z) :
  NoDup vs → valid_index (length vs) i → valid_index (length vs) j →
  at_index vs i = at_index vs j → i = j.
Proof.
  unfold valid_index, at_index. intros Hnd Hi Hj Heq.
  apply NoDup_ListNoDup in Hnd.
  apply (proj1 (NoDup_nth vs 0%nat) Hnd) in Heq; lia.
Qed.

Lemma NoDup_rev_list (vs : list nat) : NoDup vs → NoDup (rev vs).
Proof. rewrite !NoDup_ListNoDup. apply NoDup_rev. Qed.

Ltac nodup_literal :=
  repeat (apply NoDup_cons; split;
          [rewrite ?elem_of_cons, ?elem_of_nil; lia|]);
  apply NoDup_nil_2.

Lemma proper_edges_app (k : nat) (done : list (Z * Z)) (e : Z * Z)
    (edges : list (Z * Z)) :
  proper_edges k (done ++ e :: edges) →
  valid_index k e.1 ∧ valid_index k e.2 ∧ e.1 ≠ e.2 ∧
  Forall (fun e' => valid_index k e'.1 ∧ valid_index k e'.2 ∧
                    edge_ends e' ≠ edge_ends e) done.
Proof.
  intros (Hvalid & Hdiff & Hpairs).
  apply Forall_app in Hvalid as [Hvd Hve].
  apply Forall_cons in Hve as [[Hi Hj] _].
  apply Forall_app in Hdiff as [_ Hde].
  apply Forall_cons in Hde as [Hij _].
  rewrite map_app in Hpairs. apply NoDup_app in Hpairs as (_ & Hsep & _).
  split; [done|]. split; [done|]. split; [done|].
  apply Forall_forall. intros e' He'.
  rewrite Forall_forall in Hvd. destruct (Hvd e' He') as [Hi' Hj'].
  split; [done|]. split; [done|]. intros Heq.
  apply (Hsep (edge_ends e')).
  - apply list_elem_of_fmap. by exists e'.
  - rewrite Heq. apply list_elem_of_here.
Qed.

Lemma stitch_from (k base : nat) (prev : list nat) (done edges : list (Z * Z))
    (vsx : list Vector) (old : list (list nat)) :
  length prev = k → NoDup prev → Forall (fun v => (v < base)%nat) prev →
  proper_edges k (done ++ edges) →
  Forall (Forall (fun v => (v < base)%nat)) old →
  stitch prev (seq base k) edges
    {| verts := vsx; faces := old ++ map (quad prev (seq base k)) done |} =
  Ok {| verts := vsx;
        faces := old ++ map (quad prev (seq base k)) (done ++ edges) |}.
Proof.
  intros Hlen Hnd Hlow Hproper Hold. unfold stitch. revert done Hproper.
  induction edges as [|[i j] edges IH]; intros done Hproper.
  - cbn. by rewrite app_nil_r.
  - destruct (proper_edges_app k done (i, j) edges Hproper)
      as (Hi & Hj & Hij & Hdone). cbn [fst snd] in Hi, Hj, Hij.
    assert (Hbound : ∀ i', valid_index k i' → (at_index prev i' < base)%nat).
    { intros i' Hi'. rewrite Forall_forall in Hlow.
      apply Hlow, at_index_elem. by rewrite Hlen. }
    pose proof (Hbound i Hi) as Hpi. pose proof (Hbound j Hj) as Hpj.
    assert (Hpij : at_index prev i ≠ at_index prev j).
    { intros Heq. apply Hij. apply (at_index_inj prev); by rewrite ?Hlen. }
    cbn [for_each].
    rewrite !py_getitem_at_index by (by rewrite ?Hlen, ?length_seq).
    cbn [mbind result_bind]. rewrite !at_index_seq by done.
    unfold valid_index in Hi, Hj.
    rewrite faces_new_accepts.
    + cbn [mbind result_bind verts faces].
      replace ((old ++ map (quad prev (seq base k)) done) ++
               [[at_index prev j; (base + Z.to_nat j)%nat;
                 (base + Z.to_nat i)%nat; at_index prev i]])
        with (old ++ map (quad prev (seq base k)) (done ++ [(i, j)])).
      * rewrite IH by (by rewrite <- app_assoc). by rewrite <- app_assoc.
      * rewrite map_app, app_assoc. cbn [map]. unfold quad. cbn [fst snd].
        by rewrite !at_index_seq.
    + cbn. lia.
    + nodup_literal.
    + cbn [faces]. apply Forall_app. split.
      * eapply Forall_impl; [exact Hold|]. intros g Hg.
        apply (same_verts_missing _ _ (base + Z.to_nat i)%nat).
        -- rewrite !elem_of_cons. tauto.
        -- intros Hin. rewrite Forall_forall in Hg. specialize (Hg _ Hin). lia.
      * apply Forall_forall. intros g Hg.
        apply list_elem_of_fmap in Hg as ([i' j'] & -> & He').
        rewrite Forall_forall in Hdone.
        destruct (Hdone _ He') as (Hi' & Hj' & Hne). cbn [fst snd] in Hi', Hj'.
        pose proof (Hbound i' Hi'). pose proof (Hbound j' Hj').
        intros [_ Hall]. apply Hne. unfold quad in Hall. cbn [fst snd] in Hall.
        rewrite !at_index_seq in Hall by done.
        rewrite !Forall_cons, !elem_of_cons, !elem_of_nil in Hall.
        destruct Hall as (_ & Hin1 & Hin2 & _).
        unfold valid_index in Hi', Hj'.
        unfold edge_ends. cbn [fst snd]. f_equal; lia.
Qed.

Lemma stitch_spec (k base : nat) (prev : list nat) (edges : list (Z * Z))
    (mesh : BMesh) :
  length prev = k → NoDup prev → Forall (fun v => (v < base)%nat) prev →
  proper_edges k edges →
  Forall (Forall (fun v => (v < base)%nat)) (faces mesh) →
  stitch prev (seq base k) edges mesh =
    Ok {| verts := verts mesh;
          faces := faces mesh ++ map (quad prev (seq base k)) edges |}.
Proof.
  intros Hlen Hnd Hlow Hproper Hold.
  pose proof (stitch_from k base prev [] edges (verts mesh) (faces mesh)
                Hlen Hnd Hlow Hproper Hold) as Hrun.
  cbn [map app] in Hrun. rewrite app_nil_r in Hrun. by destruct mesh.
Qed.

Lemma close_loop_from (k a b : nat) (done edges : list (Z * Z))
    (vsx : list Vector) (old : list (list nat)) :
  (a + k ≤ b)%nat →
  proper_edges k (done ++ edges) →
  Forall (fun g => ∃ w, w ∈ g ∧
            (w < a ∨ a + k ≤ w < b ∨ b + k ≤ w)%nat) old →
  close_loop (Some (seq a k)) (Some (seq b k)) edges
    {| verts := vsx;
       faces := old ++ map (closing_quad (seq a k) (seq b k)) done |} =
  Ok {| verts := vsx;
        faces := old ++ map (closing_quad (seq a k) (seq b k)) (done ++ edges) |}.
Proof.
  intros Hab Hproper Hold. unfold close_loop. revert done Hproper.
  induction edges as [|[i j] edges IH]; intros done Hproper.
  - cbn. by rewrite app_nil_r.
  - destruct (proper_edges_app k done (i, j) edges Hproper)
      as (Hi & Hj & Hij & Hdone). cbn [fst snd] in Hi, Hj, Hij.
    cbn [for_each py_getitem_opt].
    rewrite !py_getitem_at_index by (by rewrite ?length_seq).
    cbn [mbind result_bind]. rewrite !at_index_seq by done.
    unfold valid_index in Hi, Hj.
    rewrite faces_new_accepts.
    + cbn [mbind result_bind verts faces].
      replace ((old ++ map (closing_quad (seq a k) (seq b k)) done) ++
               [[(a + Z.to_nat i)%nat; (b + Z.to_nat i)%nat;
                 (b + Z.to_nat j)%nat; (a + Z.to_nat j)%nat]])
        with (old ++ map (closing_quad (seq a k) (seq b k)) (done ++ [(i, j)])).
      * rewrite IH by (by rewrite <- app_assoc). by rewrite <- app_assoc.
      * rewrite map_app, app_assoc. cbn [map]. unfold closing_quad.
        cbn [fst snd]. by rewrite !at_index_seq.
    + cbn. lia.
    + nodup_literal.
    + cbn [faces]. apply Forall_app. split.
      * eapply Forall_impl; [exact Hold|]. intros g (w & Hw & Hout).
        apply (same_verts_outside _ _ w); [nodup_literal|done|].
        rewrite !elem_of_cons, elem_of_nil. lia.
      * apply Forall_forall. intros g Hg.
        apply list_elem_of_fmap in Hg as ([i' j'] & -> & He').
        rewrite Forall_forall in Hdone.
        destruct (Hdone _ He') as (Hi' & Hj' & Hne). cbn [fst snd] in Hi', Hj'.
        intros [_ Hall]. apply Hne.
        unfold closing_quad in Hall. cbn [fst snd] in Hall.
        rewrite !at_index_seq in Hall by done.
        rewrite !Forall_cons, !elem_of_cons, !elem_of_nil in Hall.
        destruct Hall as (_ & Hin1 & Hin2 & _).
        unfold valid_index in Hi', Hj'.
        unfold edge_ends. cbn [fst snd]. f_equal; lia.
Qed.

Lemma close_loop_spec (k a b : nat) (edges : list (Z * Z)) (mesh : BMesh) :
  (a + k ≤ b)%nat →
  proper_edges k edges →
  Forall (fun g => ∃ w, w ∈ g ∧
            (w < a ∨ a + k ≤ w < b ∨ b + k ≤ w)%nat) (faces mesh) →
  close_loop (Some (seq a k)) (Some (seq b k)) edges mesh =
    Ok {| verts := verts mesh;
          faces := faces mesh ++ map (closing_quad (seq a k) (seq b k)) edges |}.
Proof.
  intros Hab Hproper Hold.
  pose proof (close_loop_from k a b [] edges (verts mesh) (faces mesh)
                Hab Hproper Hold) as Hrun.
  cbn [map app] in Hrun. rewrite app_nil_r in Hrun. by destruct mesh.
Qed.

(** The cap over a whole ring, when no profile faces are given. *)
Lemma cap_ring_spec (vs : list nat) (backwards : bool) (mesh : BMesh) :
  (3 ≤ length vs)%nat → NoDup vs →
  Forall (fun g => ∃ w, w ∈ g ∧ w ∉ vs) (faces mesh) →
  cap_with (Some vs) [] backwards mesh =
    Ok {| verts := verts mesh;
          faces := faces mesh ++ cap_faces vs [] backwards |}.
Proof.
  intros Hlen Hnd Hold. cbn [cap_with cap_faces].
  apply faces_new_accepts.
  - destruct backwards; by rewrite ?length_rev.
  - destruct backwards; [by apply NoDup_rev_list|done].
  - eapply Forall_impl; [exact Hold|]. intros g (w & Hw & Hout).
    apply (same_verts_outside _ _ w); [|done|].
    + destruct backwards; [by apply NoDup_rev_list|done].
    + destruct backwards; [|done].
      intros Hin. apply Hout. by apply list_elem_of_In, in_rev, list_elem_of_In.
Qed.

Lemma loop_faces_rings (k : nat) (edges : list (Z * Z)) (r m : nat) :
  loop_faces k edges (Some (ring k r)) (S r * k) m =
    flat_map (fun r' => map (quad (ring k r') (ring k (S r'))) edges) (seq r m).
Proof.
  revert r. induction m as [|m IH]; intros r; [done|].
  cbn [loop_faces seq flat_map]. f_equal.
  replace (S r * k + k)%nat with (S (S r) * k)%nat by lia.
  apply (IH (S r)).
Qed.

Lemma loop_faces_start (k : nat) (edges : list (Z * Z)) (n : nat) :
  loop_faces k edges None 0 n = sweep_quads k edges n.
Proof.
  unfold sweep_quads. destruct n as [|n]; [done|].
  cbn [loop_faces app]. rewrite Nat.sub_succ, Nat.sub_0_r.
  replace (0 + k)%nat with (1 * k)%nat by lia.
  apply (loop_faces_rings k edges 0 n).
Qed.

Lemma sweep_step_unfold (self : Node) (bevel_verts : list Vector)
    (edges : list (Z * Z)) (mesh : BMesh) (prev first : option (list nat))
    (spline_vertex tangent : Vector) (scale_x scale_y twist_value : R) :
  sweep_step self bevel_verts edges (mesh, prev, first)
             (spline_vertex, tangent, (scale_x, scale_y), twist_value) =
    matrix ← get_matrix self tangent twist_value scale_x scale_y;
    let '(mesh, level_vertices) :=
      add_level matrix spline_vertex bevel_verts mesh in
    mesh ← match prev with
           | Some prev => stitch prev level_vertices edges mesh
           | None => Ok mesh
           end;
    Ok (mesh, Some level_vertices,
        match first with None => Some level_vertices | Some f => Some f end).
Proof. reflexivity. Qed.

Lemma quads_in_range (k base : nat) (prev : list nat) (edges : list (Z * Z)) :
  length prev = k → Forall (fun v => (v < base)%nat) prev →
  valid_edges k edges →
  Forall (Forall (fun v => (v < base + k)%nat))
         (map (quad prev (seq base k)) edges).
Proof.
  intros Hlen Hlow Hvalid. apply Forall_fmap.
  eapply Forall_impl; [exact Hvalid|]. intros [i j] [Hi Hj].
  cbn [fst snd] in Hi, Hj. unfold quad, compose. cbn [fst snd].
  rewrite !at_index_seq by done.
  assert (Hbound : ∀ i', valid_index k i' → (at_index prev i' < base)%nat).
  { intros i' Hi'. rewrite Forall_forall in Hlow.
    apply Hlow, at_index_elem. by rewrite Hlen. }
  pose proof (Hbound i Hi). pose proof (Hbound j Hj).
  unfold valid_index in Hi, Hj.
  repeat (apply Forall_cons; split; [lia|]). apply Forall_nil_2.
Qed.

(** The loop over stations, from any state it can be in: the faces of
    the mesh refer to vertices of the mesh, and so does the ring kept
    from the station before. *)
Lemma sweep_loop_spec (self : Node) (bevel_verts : list Vector)
    (edges : list (Z * Z)) (stations : list Station) :
  let k := length bevel_verts in
  frame_defined self →
  proper_edges k edges →
  ∀ (mesh : BMesh) (prev first : option (list nat)),
    Forall (Forall (fun v => (v < length (verts mesh))%nat)) (faces mesh) →
    (∀ p, prev = Some p →
          length p = k ∧ NoDup p ∧
          Forall (fun v => (v < length (verts mesh))%nat) p) →
    ∃ vs, length vs = (k * length stations)%nat ∧
      for_each (sweep_step self bevel_verts edges) stations (mesh, prev, first) =
        Ok ({| verts := verts mesh ++ vs;
               faces := faces mesh ++
                        loop_faces k edges prev (length (verts mesh))
                                   (length stations) |},
            match stations with
            | [] => prev
            | _ :: _ =>
                Some (seq (length (verts mesh) + k * (length stations - 1)) k)
            end,
            match first, stations with
            | Some f, _ => Some f
            | None, [] => None
            | None, _ :: _ => Some (seq (length (verts mesh)) k)
            end).
Proof.
  intros k Hframe Hedges.
  induction stations as [|station stations IH]; intros mesh prev first Hold Hprev.
  - exists []. split; [cbn; lia|]. cbn. rewrite !app_nil_r.
    destruct mesh, first; reflexivity.
  - destruct station as [[[spline_vertex tangent] [scale_x scale_y]] twist_value].
    destruct (get_matrix_defined self tangent twist_value scale_x scale_y Hframe)
      as [matrix Hm].
    cbn [for_each]. rewrite sweep_step_unfold, Hm. cbn [mbind result_bind].
    rewrite add_level_spec. fold k.
    set (base := length (verts mesh)) in *.
    set (cur := seq base k).
    set (pts := map (fun bv => vadd (matvec matrix bv) spline_vertex) bevel_verts).
    assert (Hpts : length pts = k) by apply length_map.
    set (mesh1 := {| verts := verts mesh ++ pts; faces := faces mesh |}).
    set (quads := match prev with
                  | Some p => map (quad p cur) edges
                  | None => []
                  end).
    assert (Hstitch :
      match prev with
      | Some p => stitch p cur edges mesh1
      | None => Ok mesh1
      end = Ok {| verts := verts mesh ++ pts; faces := faces mesh ++ quads |}).
    { subst quads. destruct prev as [p|].
      - destruct (Hprev p eq_refl) as (Hlen & Hnd & Hlow).
        exact (stitch_spec k base p edges mesh1 Hlen Hnd Hlow Hedges Hold).
      - by rewrite app_nil_r. }
    rewrite Hstitch. cbn [mbind result_bind].
    destruct (IH {| verts := verts mesh ++ pts; faces := faces mesh ++ quads |}
                 (Some cur)
                 (match first with None => Some cur | Some f => Some f end))
      as (vs & Hvs & ->).
    { cbn [verts faces]. rewrite length_app, Hpts. fold base.
      apply Forall_app. split.
      - eapply Forall_impl; [exact Hold|]. intros g Hg.
        eapply Forall_impl; [exact Hg|]. cbn. lia.
      - subst quads. destruct prev as [p|]; [|constructor].
        destruct (Hprev p eq_refl) as (Hlen & Hnd & Hlow).
        apply quads_in_range; [done|done|apply Hedges]. }
    { intros p [= <-]. cbn [verts]. rewrite length_app, Hpts. fold base.
      split; [apply length_seq|]. split; [apply NoDup_seq|].
      apply Forall_forall. intros v Hv. apply elem_of_seq in Hv. lia. }
    exists (pts ++ vs). split.
    { rewrite length_app, Hpts, Hvs. cbn [length]. rewrite Nat.mul_succ_r. lia. }
    cbn [verts faces length loop_faces]. rewrite length_app, Hpts.
    fold base cur. subst quads. rewrite <- !app_assoc.
    rewrite Nat.sub_succ, Nat.sub_0_r.
    assert (Hlast :
      match stations with
      | [] => Some cur
      | _ :: _ =>
          Some (seq (base + k + k * (length stations - 1)) k)
      end = Some (seq (base + k * length stations) k)).
    { destruct stations as [|s stations]; cbn [length]; subst cur;
        rewrite ?Nat.sub_succ, ?Nat.sub_0_r;
        (apply (f_equal Some), (f_equal (fun b => seq b k)); lia). }
    rewrite Hlast. by destruct first, stations.
Qed.

(** The loop from the empty mesh. *)
Lemma sweep_from_empty (self : Node) (bevel_verts : list Vector)
    (edges : list (Z * Z)) (stations : list Station) :
  let k := length bevel_verts in
  let n := length stations in
  frame_defined self →
  proper_edges k edges →
  (1 ≤ n)%nat →
  ∃ vs, length vs = (k * n)%nat ∧
    for_each (sweep_step self bevel_verts edges) stations (bmesh_new, None, None) =
      Ok ({| verts := vs; faces := sweep_quads k edges n |},
          Some (ring k (n - 1)), Some (ring k 0)).
Proof.
  intros k n Hframe Hedges Hn.
  destruct (sweep_loop_spec self bevel_verts edges stations Hframe Hedges
              bmesh_new None None) as (vs & Hvs & ->); [constructor|done|].
  exists vs. split; [exact Hvs|].
  destruct stations as [|s stations]; [cbn in Hn; lia|].
  cbn [bmesh_new verts faces app length]. rewrite loop_faces_start.
  unfold ring. fold k. subst n. cbn [length].
  rewrite Nat.sub_succ, Nat.sub_0_r.
  replace (0 + k * length stations)%nat with (length stations * k)%nat by lia.
  reflexivity.
Qed.

Lemma length_linspace (steps : Z) :
  (0 ≤ steps)%Z →
  ∃ ts, linspace steps = Ok ts ∧ length ts = Z.to_nat steps.
Proof.
  intros Hs. unfold linspace.
  destruct (Z.ltb_spec steps 0); [lia|].
  destruct (Z.eqb_spec steps 1) as [->|_].
  - by exists [0].
  - eexists. split; [reflexivity|]. by rewrite length_map, length_seqZ.
Qed.

Lemma length_sample_stations (self : Node) (spline taper twist : Spline)
    (steps : Z) :
  (0 ≤ steps)%Z →
  ∃ stations, sample_stations self spline taper twist steps = Ok stations ∧
              length stations = station_count self steps.
Proof.
  intros Hs. destruct (length_linspace steps Hs) as (ts & Hts & Hlen).
  unfold sample_stations. rewrite Hts. cbn [mbind result_bind].
  eexists. split; [reflexivity|].
  set (ts' := if is_cyclic self then removelast ts else ts).
  assert (Hts' : length ts' = station_count self steps).
  { unfold ts', station_count. destruct (is_cyclic self); [|done].
    rewrite removelast_firstn_len, length_take. lia. }
  assert (Hflip : ∀ b : bool,
    length (if b then map (fun t => 1 - t) ts' else ts') = length ts').
  { intros []; [apply length_map|done]. }
  cbv zeta. fold ts'.
  rewrite !length_zip_with, !length_map, !Hflip. lia.
Qed.

Lemma build_spline_ok (self : Node) (path : list Vector) (mode : Mode)
    (cyclic : bool) (m : option KnotMetric) :
  (2 ≤ length path)%nat →
  ∃ spline, build_spline self path mode cyclic m = Ok spline.
Proof.
  intros Hp. unfold build_spline, LinearSpline, CubicSpline, new_spline.
  destruct (Nat.ltb_spec (length path) 2); [lia|].
  destruct mode; eexists; reflexivity.
Qed.

Lemma build_spline_short (self : Node) (path : list Vector) (mode : Mode)
    (cyclic : bool) (m : option KnotMetric) :
  (length path < 2)%nat →
  build_spline self path mode cyclic m = Raise InvalidInput.
Proof.
  intros Hp. unfold build_spline, LinearSpline, CubicSpline, new_spline.
  destruct (Nat.ltb_spec (length path) 2); [|lia].
  by destruct mode.
Qed.

Lemma sweep_quads_elem (k : nat) (edges : list (Z * Z)) (m : nat)
    (g : list nat) :
  g ∈ sweep_quads k edges m →
  ∃ r e, (S r < m)%nat ∧ e ∈ edges ∧ g = quad (ring k r) (ring k (S r)) e.
Proof.
  unfold sweep_quads. intros Hg.
  apply list_elem_of_In, in_flat_map in Hg as (r & Hr & Hg).
  apply in_seq in Hr. apply in_map_iff in Hg as (e & <- & He).
  exists r, e. split; [lia|]. split; [by apply list_elem_of_In|done].
Qed.

Lemma sweep_quad_corners (k r : nat) (e : Z * Z) :
  valid_index k e.1 → valid_index k e.2 →
  quad (ring k r) (ring k (S r)) e =
    [(r * k + Z.to_nat e.2)%nat; (S r * k + Z.to_nat e.2)%nat;
     (S r * k + Z.to_nat e.1)%nat; (r * k + Z.to_nat e.1)%nat].
Proof. intros Hi Hj. unfold quad, ring. by rewrite !at_index_seq. Qed.

(** Every stitch has a vertex off the first ring and one off the last. *)
Lemma sweep_quads_off_ring (k : nat) (edges : list (Z * Z)) (m r0 : nat) :
  valid_edges k edges → (r0 = 0 ∨ m ≤ S r0)%nat →
  Forall (fun g => ∃ w, w ∈ g ∧ w ∉ ring k r0) (sweep_quads k edges m).
Proof.
  intros Hvalid Hr0. apply Forall_forall. intros g Hg.
  apply sweep_quads_elem in Hg as (r & e & Hr & He & ->).
  unfold valid_edges in Hvalid. rewrite Forall_forall in Hvalid.
  destruct (Hvalid e He) as [Hi Hj].
  rewrite sweep_quad_corners by done. unfold valid_index in Hi, Hj.
  unfold ring. destruct Hr0 as [-> | Hlast].
  - exists (S r * k + Z.to_nat e.2)%nat. split.
    + rewrite !elem_of_cons. tauto.
    + rewrite elem_of_seq. lia.
  - exists (r * k + Z.to_nat e.2)%nat. split.
    + rewrite !elem_of_cons. tauto.
    + assert (S r * k ≤ r0 * k)%nat by (apply Nat.mul_le_mono_r; lia).
      rewrite elem_of_seq. lia.
Qed.

(** With three rings or more, every stitch has a vertex on a ring that
    is neither the first nor the last. *)
Lemma sweep_quads_middle (k : nat) (edges : list (Z * Z)) (m : nat) :
  valid_edges k edges → (3 ≤ m)%nat →
  Forall (fun g => ∃ w, w ∈ g ∧
            (w < 0 ∨ 0 + k ≤ w < (m - 1) * k ∨ (m - 1) * k + k ≤ w)%nat)
         (sweep_quads k edges m).
Proof.
  intros Hvalid Hm. apply Forall_forall. intros g Hg.
  apply sweep_quads_elem in Hg as (r & e & Hr & He & ->).
  unfold valid_edges in Hvalid. rewrite Forall_forall in Hvalid.
  destruct (Hvalid e He) as [Hi Hj].
  rewrite sweep_quad_corners by done. unfold valid_index in Hi, Hj.
  destruct r as [|r].
  - exists (1 * k + Z.to_nat e.2)%nat. split.
    + rewrite !elem_of_cons. tauto.
    + assert (2 * k ≤ (m - 1) * k)%nat by (apply Nat.mul_le_mono_r; lia). lia.
  - exists (S r * k + Z.to_nat e.2)%nat. split.
    + rewrite !elem_of_cons. tauto.
    + assert (S (S r) * k ≤ (m - 1) * k)%nat
        by (apply Nat.mul_le_mono_r; lia). lia.
Qed.

Lemma length_ring (k r : nat) : length (ring k r) = k.
Proof. apply length_seq. Qed.

Lemma NoDup_ring (k r : nat) : NoDup (ring k r).
Proof. apply NoDup_seq. Qed.

(** The mesh of a non-cyclic sweep: the rings, the stitches between
    consecutive rings, then the start cap and the end cap if asked for.
    A cap over the whole ring is taken for a ring of three vertices or
    more; both caps need two rings. *)
Lemma make_bevel_open (self : Node) (curve bevel_verts : list Vector)
    (bevel_edges : list (Z * Z)) (bevel_faces : list (list Z))
    (taper twist : Spline) (steps : Z) :
  let k := length bevel_verts in
  let n := Z.to_nat steps in
  let edges := profile_edges bevel_edges bevel_faces in
  is_cyclic self = false →
  (2 ≤ length curve)%nat →
  frame_defined self →
  (1 ≤ steps)%Z →
  proper_edges k edges →
  (cap_start self || cap_end self = true → bevel_faces = [] ∧ (3 ≤ k)%nat) →
  (cap_start self && cap_end self = true → (2 ≤ steps)%Z) →
  ∃ vs, length vs = (k * n)%nat ∧
    make_bevel self curve bevel_verts bevel_edges bevel_faces taper twist steps =
      Ok {| verts := vs;
            faces := sweep_quads k edges n ++
                     (if cap_start self
                      then cap_faces (ring k 0) bevel_faces true else []) ++
                     (if cap_end self
                      then cap_faces (ring k (n - 1)) bevel_faces false else []) |}.
Proof.
  intros k n edges Hcyc Hpath Hframe Hsteps Hedges Hcaps Hboth.
  destruct (build_spline_ok self curve (bevel_mode self) (is_cyclic self) None Hpath)
    as [spline Hspline].
  destruct (length_sample_stations self spline taper twist steps)
    as (stations & Hst & Hlen); [lia|].
  assert (Hn : length stations = n).
  { rewrite Hlen. unfold station_count. by rewrite Hcyc. }
  destruct (sweep_from_empty self bevel_verts edges stations Hframe Hedges)
    as (vs & Hvs & Hloop); [lia|].
  rewrite Hn in Hvs, Hloop. fold k in Hvs, Hloop.
  exists vs. split; [exact Hvs|].
  unfold make_bevel. rewrite Hspline. cbn [mbind result_bind].
  rewrite Hst. cbn [mbind result_bind]. fold edges. rewrite Hloop.
  cbn [mbind result_bind]. rewrite Hcyc. cbn [negb].
  pose proof (proj1 Hedges) as Hvalid.
  assert (Hfirst : Forall (fun g => ∃ w, w ∈ g ∧ w ∉ ring k 0)
                          (sweep_quads k edges n))
    by (apply sweep_quads_off_ring; [done|by left]).
  assert (Hlast : Forall (fun g => ∃ w, w ∈ g ∧ w ∉ ring k (n - 1))
                         (sweep_quads k edges n))
    by (apply sweep_quads_off_ring; [done|right; lia]).
  destruct (cap_start self), (cap_end self); cbn [orb andb] in *.
  - destruct (Hcaps eq_refl) as [-> Hk]. specialize (Hboth eq_refl).
    rewrite cap_ring_spec;
      [|by rewrite length_ring|apply NoDup_ring|exact Hfirst].
    cbn [mbind result_bind]. rewrite bool_decide_true by eauto.
    rewrite cap_ring_spec; [|by rewrite length_ring|apply NoDup_ring|].
    + cbn [verts faces]. by rewrite <- app_assoc.
    + cbn [faces cap_faces]. apply Forall_app. split; [exact Hlast|].
      apply Forall_cons. split; [|constructor].
      exists 0%nat. split.
      * apply list_elem_of_In, (proj1 (in_rev _ _)). unfold ring.
        apply in_seq. lia.
      * assert (1 * k ≤ (n - 1) * k)%nat by (apply Nat.mul_le_mono_r; lia).
        unfold ring. rewrite elem_of_seq. lia.
  - destruct (Hcaps eq_refl) as [-> Hk].
    rewrite cap_ring_spec;
      [|by rewrite length_ring|apply NoDup_ring|exact Hfirst].
    cbn [mbind result_bind verts faces]. by rewrite app_nil_r.
  - destruct (Hcaps eq_refl) as [-> Hk].
    cbn [mbind result_bind]. rewrite bool_decide_true by eauto.
    rewrite cap_ring_spec;
      [|by rewrite length_ring|apply NoDup_ring|exact Hlast].
    reflexivity.
  - cbn [mbind result_bind]. by rewrite !app_nil_r.
Qed.

(** The mesh of a cyclic sweep: one ring fewer, the stitches between
    consecutive rings, then the stitch from the last ring to the first,
    which the mesh takes when there are three rings or more. *)
Lemma make_bevel_closed (self : Node) (curve bevel_verts : list Vector)
    (bevel_edges : list (Z * Z)) (bevel_faces : list (list Z))
    (taper twist : Spline) (steps : Z) :
  let k := length bevel_verts in
  let n := Z.to_nat steps in
  let edges := profile_edges bevel_edges bevel_faces in
  is_cyclic self = true →
  (2 ≤ length curve)%nat →
  frame_defined self →
  (2 ≤ steps)%Z →
  proper_edges k edges →
  edges = [] ∨ (4 ≤ steps)%Z →
  ∃ vs, length vs = (k * (n - 1))%nat ∧
    make_bevel self curve bevel_verts bevel_edges bevel_faces taper twist steps =
      Ok {| verts := vs;
            faces := sweep_quads k edges (n - 1) ++
                     map (closing_quad (ring k 0) (ring k (n - 2))) edges |}.
Proof.
  intros k n edges Hcyc Hpath Hframe Hsteps Hedges Hrings.
  destruct (build_spline_ok self curve (bevel_mode self) (is_cyclic self) None Hpath)
    as [spline Hspline].
  destruct (length_sample_stations self spline taper twist steps)
    as (stations & Hst & Hlen); [lia|].
  assert (Hn : length stations = (n - 1)%nat).
  { rewrite Hlen. unfold station_count. by rewrite Hcyc. }
  destruct (sweep_from_empty self bevel_verts edges stations Hframe Hedges)
    as (vs & Hvs & Hloop); [lia|].
  rewrite Hn in Hvs, Hloop. fold k in Hvs, Hloop.
  exists vs. split; [exact Hvs|].
  unfold make_bevel. rewrite Hspline. cbn [mbind result_bind].
  rewrite Hst. cbn [mbind result_bind]. fold edges. rewrite Hloop.
  cbn [mbind result_bind]. rewrite Hcyc. cbn [negb].
  replace (n - 1 - 1)%nat with (n - 2)%nat by lia.
  clearbody edges. destruct Hrings as [-> | Hfour].
  - cbn. by rewrite app_nil_r.
  - unfold ring at 1 2 3 4.
    rewrite (close_loop_spec k (0 * k) ((n - 2) * k)).
    + reflexivity.
    + assert (1 * k ≤ (n - 2) * k)%nat by (apply Nat.mul_le_mono_r; lia). lia.
    + exact Hedges.
    + cbn [faces]. replace (n - 2)%nat with (n - 1 - 1)%nat by lia.
      apply sweep_quads_middle; [apply Hedges|lia].
Qed.

(** *** Profiles that are closed rings *)


Lemma valid_ring_edges (k : nat) : valid_edges k (ring_edges k).
Proof.
  unfold valid_edges, ring_edges. apply Forall_forall. intros e He.
  apply list_elem_of_fmap in He as (i & -> & Hi).
  apply elem_of_seqZ in Hi. cbn. unfold valid_index.
  pose proof (Z.mod_pos_bound (i + 1) (Z.of_nat k)). lia.
Qed.

Lemma ring_next (k : nat) (i : Z) :
  (0 ≤ i < Z.of_nat k)%Z →
  ((i + 1 < Z.of_nat k ∧ (i + 1) `mod` Z.of_nat k = i + 1) ∨
   (i + 1 = Z.of_nat k ∧ (i + 1) `mod` Z.of_nat k = 0))%Z.
Proof.
  intros Hi. destruct (decide (i + 1 < Z.of_nat k)%Z) as [Hlt|Hge].
  - left. split; [done|]. apply Z.mod_small. lia.
  - right. assert (Heq : (i + 1 = Z.of_nat k)%Z) by lia.
    split; [done|]. rewrite Heq. apply Z_mod_same_full.
Qed.

(** A closed ring of three vertices or more has edges the mesh takes
    quads along; with two vertices its two edges join the same pair. *)
Lemma proper_ring_edges (k : nat) : (3 ≤ k)%nat → proper_edges k (ring_edges k).
Proof.
  intros Hk. split; [apply valid_ring_edges|]. split.
  - unfold ring_edges. apply Forall_forall. intros e He.
    apply list_elem_of_fmap in He as (i & -> & Hi).
    apply elem_of_seqZ in Hi. cbn [fst snd].
    destruct (ring_next k i ltac:(lia)) as [[Hlt ->] | [Hend ->]]; lia.
  - unfold ring_edges. rewrite map_map.
    apply NoDup_fmap_2_strong; [|apply NoDup_seqZ].
    intros i i' Hi Hi' Heq.
    apply elem_of_seqZ in Hi. apply elem_of_seqZ in Hi'.
    unfold edge_ends in Heq. cbn [fst snd] in Heq.
    destruct (ring_next k i ltac:(lia)) as [[? Hm] | [? Hm]];
      destruct (ring_next k i' ltac:(lia)) as [[? Hm'] | [? Hm']];
      rewrite Hm, Hm' in Heq; injection Heq; lia.
Qed.






Lemma closing_quad_rotated (first last : list nat) (e : Z * Z) :
  closing_quad first last e = rotate 2 (quad last first e).
Proof. reflexivity. Qed.



(** *** The claims about the sweep *)

(** The sweep has no check of its own on the step count: one step on a
    non-cyclic sweep gives one ring and no stitch. *)
Lemma make_bevel_single_step (self : Node) (curve bevel_verts : list Vector)
    (bevel_edges : list (Z * Z)) (taper twist : Spline) :
  is_cyclic self = false → cap_start self = false → cap_end self = false →
  (2 ≤ length curve)%nat →
  frame_defined self →
  ∃ vs, length vs = length bevel_verts ∧
    make_bevel self curve bevel_verts bevel_edges [] taper twist 1 =
      Ok {| verts := vs; faces := [] |}.
Proof.
  intros Hcyc Hcs Hce Hpath Hframe.
  destruct (build_spline_ok self curve (bevel_mode self) (is_cyclic self) None Hpath)
    as [spline Hspline].
  destruct (length_sample_stations self spline taper twist 1)
    as (stations & Hst & Hlen); [lia|].
  unfold station_count in Hlen. rewrite Hcyc in Hlen.
  destruct stations as [|[[[p t] [sx sy]] tw] [|s stations]];
    [cbn in Hlen; lia| |cbn in Hlen; lia].
  destruct (get_matrix_defined self t tw sx sy Hframe) as [matrix Hm].
  unfold make_bevel. rewrite Hspline. cbn [mbind result_bind].
  rewrite Hst. cbn [mbind result_bind for_each].
  rewrite sweep_step_unfold, Hm. cbn [mbind result_bind].
  rewrite add_level_spec. cbn [mbind result_bind].
  rewrite Hcyc, Hcs, Hce. cbn [negb andb mbind result_bind].
  eexists. split; [|reflexivity]. cbn. apply length_map.
Qed.

(** C2 (as amended).  A path of fewer than two control points, the empty
    path among them, makes the sweep fail with InvalidInput whatever the
    step count and the other inputs are, and no mesh is produced.  The
    step count itself is not checked: on a path of two points or more, a
    non-cyclic sweep without caps and with step count 1 returns a mesh,
    one ring of the profile's vertices and no face. *)
Theorem C2_path_checked_steps_not (self : Node) (curve bevel_verts : list Vector)
    (bevel_edges : list (Z * Z)) (bevel_faces : list (list Z))
    (taper twist : Spline) (steps : Z) :
  ((length curve < 2)%nat →
   make_bevel self curve bevel_verts bevel_edges bevel_faces taper twist steps =
     Raise InvalidInput) ∧
  ((2 ≤ length curve)%nat →
   is_cyclic self = false → cap_start self = false → cap_end self = false →
   frame_defined self →
   ∃ vs, length vs = length bevel_verts ∧
     make_bevel self curve bevel_verts bevel_edges [] taper twist 1 =
       Ok {| verts := vs; faces := [] |}).
Proof.
  split.
  - intros Hc. unfold make_bevel.
    by rewrite build_spline_short.
  - intros Hpath Hcyc Hcs Hce Hframe.
    by apply make_bevel_single_step.
Qed.





End SweepProperties.

(** *** The claims on the spec's scenario: a unit square swept along a
    straight path *)

Lemma default_frame_defined (cyclic start_cap end_cap : bool) :
  frame_defined (with_flags default_node cyclic start_cap end_cap).
Proof. split; [apply list_elem_of_here|done]. Qed.

Lemma proper_square_edges : proper_edges (length square) (ring_edges 4).
Proof. apply (proper_ring_edges 4). lia. Qed.

(** The empty path is rejected. *)
Lemma C2_empty_path_witness :
  (length (@nil Vector) < 2)%nat ∧
  make_bevel (H := example_host) default_node [] square (ring_edges 4) []
             default_taper default_twist 5 = Raise InvalidInput.
Proof.
  split; [cbn; lia|].
  apply (C2_path_checked_steps_not (H := example_host) default_node [] square
           (ring_edges 4) [] default_taper default_twist 5).
  cbn; lia.
Defined.

(** C2 (as stated, refuted).  With step count 1 the sweep of the square
    returns a mesh, one ring of four vertices, where the claim has it fail
    with InvalidInput. *)
Lemma C2_single_step_accepted :
  ∃ vs, length vs = 4%nat ∧
    make_bevel (H := example_host) default_node straight_path square
               (ring_edges 4) [] default_taper default_twist 1 =
      Ok {| verts := vs; faces := [] |}.
Proof.
  apply (make_bevel_single_step (H := example_host) default_node straight_path
           square (ring_edges 4) default_taper default_twist);
    [reflexivity | reflexivity | reflexivity | cbn; lia
    | apply (default_frame_defined false false false)].
Qed.









(** C8 (as stated, refuted).  The token track is one of the three, and
    with the up axis equal to the orientation axis, which the node's
    properties allow, the frame is not returned: the look-at rotation is
    refused with ValueError, for every tangent. *)
Lemma C8_track_same_axis_raises :
  get_matrix (H := example_host) (with_track default_node AxisZ AxisZ)
             (mkVector 0 0 1) 0 1 1 = Raise ValueError.
Proof. reflexivity. Qed.

(** *** The taper scale and the twist angle *)

Section ScaleAndTwist.
Context `{Host}.

(** X11.  The two scales sampled from a taper point are never negative,
    and they are equal while [separate_scale] is off. *)
Theorem taper_scale_not_negative (self : Node) (vertex : Vector) :
  (0 <= (get_taper_scale self vertex).1)%R ∧
  (0 <= (get_taper_scale self vertex).2)%R ∧
  (separate_scale self = false →
   (get_taper_scale self vertex).1 = (get_taper_scale self vertex).2).
Proof.
  unfold get_taper_scale. destruct (separate_scale self); cbn [fst snd].
  - split; [apply Rabs_pos|]. split; [apply Rabs_pos|done].
  - split; [apply sqrt_pos|]. split; [apply sqrt_pos|done].
Qed.

(** X12.  The scales do not depend on where the taper point lies along
    the orientation axis: moving it along that axis changes neither. *)
Theorem taper_scale_ignores_axis (self : Node) (vertex : Vector) (a : R) :
  get_taper_scale self (vset vertex (orient_axis_idx self) a) =
  get_taper_scale self vertex.
Proof.
  unfold get_taper_scale, orient_axis_idx.
  destruct (separate_scale self), (orient_axis self); eval_index; reflexivity.
Qed.

Lemma vx_lerp (p q : Vector) (f : R) :
  vx p = 0 → vx q = 0 → vx (lerp p q f) = 0.
Proof. intros Hp Hq. cbn. rewrite Hp, Hq. ring. Qed.

Lemma vx_linear_eval (knots : list R) (pts : list Vector) (t : R) :
  Forall (fun p => vx p = 0) pts → vx (linear_eval knots pts t) = 0.
Proof.
  intros Hpts. revert knots.
  induction Hpts as [|p1 pts Hp1 Hpts IH]; intros knots.
  - by destruct knots.
  - destruct knots as [|k1 knots]; [done|].
    destruct Hpts as [|p2 pts' Hp2 Hpts'].
    + by destruct knots.
    + destruct knots as [|k2 knots]; [done|].
      cbn [linear_eval]. destruct knots as [|k3 knots].
      * by apply vx_lerp.
      * destruct (Rle_dec t k2); [by apply vx_lerp|].
        apply (IH (k2 :: k3 :: knots)).
Qed.

(** X15.  With no twist input, [None] or the empty list, the spline the
    node makes up gives the twist angle 0 at every parameter, for a cyclic
    node as for a non-cyclic one. *)
Theorem default_twist_is_zero (self : Node) (data : option (list TwistItem))
    (t : R) :
  data = None ∨ data = Some [] →
  ∃ s, make_twist_spline self data = Ok s ∧
       get_twist_value (spline_eval s t) = 0.
Proof.
  intros Hdata.
  assert (Hs : make_twist_spline self data =
               Ok {| spl_kind := Linear;
                     spl_pts := [mkVector 0 0 0; mkVector 0 0 1];
                     spl_metric := ByMetric (metric self);
                     spl_cyclic := is_cyclic self |})
    by (by destruct Hdata as [-> | ->]).
  eexists. split; [exact Hs|].
  unfold get_twist_value, spline_eval. cbn [spl_kind].
  apply vx_linear_eval. unfold spline_path. cbn [spl_cyclic spl_pts].
  destruct (is_cyclic self); repeat constructor.
Qed.

End ScaleAndTwist.

(** *** Twist data *)

Section TwistData.

Lemma twist_vertices_of_pair_list (pairs : list (R * R)) :
  comprehension (fun item =>
      match item with
      | TwistPair t twist => Ok (mkVector twist 0 t)
      | TwistAngle _ => Raise TypeError
      end)
    (map (fun p => TwistPair p.1 p.2) pairs) =
  Ok (map (fun p => mkVector p.2 0 p.1) pairs).
Proof.
  induction pairs as [|[t a] pairs IH]; [done|].
  cbn. cbn in IH. by rewrite IH.
Qed.

(** X13.  Explicit (parameter, angle) pairs, two of them or more, are kept
    as they are given: the spline's control points hold, in order, the
    angles in x, where [get_twist_value] reads them, and the parameters
    in z; and the spline is cyclic exactly when the node is. *)
Theorem twist_pairs_kept (self : Node) (pairs : list (R * R)) :
  (2 ≤ length pairs)%nat →
  ∃ s, make_twist_spline self (Some (map (fun p => TwistPair p.1 p.2) pairs))
         = Ok s ∧
       map get_twist_value (spl_pts s) = map snd pairs ∧
       map vz (spl_pts s) = map fst pairs ∧
       spl_cyclic s = is_cyclic self.
Proof.
  intros Hlen. destruct pairs as [|[t0 a0] pairs]; [cbn in Hlen; lia|].
  pose proof (twist_vertices_of_pair_list ((t0, a0) :: pairs)) as Hv.
  cbn [map fst snd] in *. cbn [make_twist_spline]. rewrite Hv.
  cbn [mbind result_bind].
  unfold build_spline, LinearSpline, CubicSpline, new_spline.
  cbn [length]. rewrite length_map.
  destruct (Nat.ltb_spec (S (length pairs)) 2); [cbn in Hlen; lia|].
  destruct (twist_mode self); eexists; (split; [reflexivity|]);
    cbn [spl_pts spl_cyclic map get_twist_value vx vz];
    rewrite !map_map; cbn; done.
Qed.

Lemma comprehension_Raise_at {X Y} (f : X → result Y) (xs : list X) (e : exn) :
  (∀ x e', f x = Raise e' → e' = e) →
  Exists (fun x => ∃ e', f x = Raise e') xs →
  comprehension f xs = Raise e.
Proof.
  intros Honly Hex. induction Hex as [x xs [e' Hx]|x xs _ IH].
  - cbn. rewrite Hx. cbn. f_equal. by eapply Honly.
  - cbn. destruct (f x) as [y|e'] eqn:Hx.
    + cbn. by rewrite IH.
    + cbn. f_equal. by eapply Honly.
Qed.

Lemma Exists_zip_r {A B} (P : B → Prop) (l : list A) (k : list B) :
  length l = length k → Exists P k → Exists (fun ab => P ab.2) (zip l k).
Proof.
  intros Hlen Hex. revert l Hlen.
  induction Hex as [b k Hb|b k _ IH]; intros [|a l] Hlen; try done.
  - by apply Exists_cons_hd.
  - apply Exists_cons_tl. apply IH. by injection Hlen.
Qed.

(** X14.  Twist data that mixes the two shapes never gives a spline:
    when the first entry is a pair and a later one is a bare angle, or the
    first is a bare angle and a later one is a pair, [make_twist_spline]
    raises TypeError. *)
Theorem twist_mixed_shapes_raise (self : Node) (first : TwistItem)
    (rest : list TwistItem) :
  Exists (fun item =>
            match first, item with
            | TwistPair _ _, TwistAngle _ | TwistAngle _, TwistPair _ _ => True
            | _, _ => False
            end) rest →
  make_twist_spline self (Some (first :: rest)) = Raise TypeError.
Proof.
  intros Hmixed. destruct first as [t0 a0|a0]; cbn [make_twist_spline].
  - rewrite (comprehension_Raise_at _ _ TypeError); [done| |].
    + intros [t a|a] e' Hx; [done|]. by injection Hx.
    + apply Exists_cons_tl. eapply Exists_impl; [exact Hmixed|].
      intros [t a|a] Hitem; [done|]. by exists TypeError.
  - assert (Hn : (Z.of_nat (length (TwistAngle a0 :: rest)) - 1)%Z ≠ 0%Z).
    { destruct rest as [|item rest]; [by apply Exists_nil in Hmixed|].
      cbn [length]. lia. }
    rewrite (twist_params_ok _ 0 _ Hn). cbn [mbind result_bind].
    rewrite (comprehension_Raise_at _ _ TypeError); [done| |].
    + intros [tt [t a|a]] e' Hx; [by injection Hx|done].
    + eapply Exists_impl.
      * apply (Exists_zip_r (fun item => ∃ t a, item = TwistPair t a)).
        -- by rewrite length_map, length_seqZ, Nat2Z.id.
        -- apply Exists_cons_tl. eapply Exists_impl; [exact Hmixed|].
           intros [t a|a] Hitem; [by exists t, a|done].
      * intros [tt item] (t & a & Hitem). cbn in Hitem. subst item.
        by exists TypeError.
Qed.

End TwistData.

(** *** What a returned mesh never has, and what stops a sweep *)

Section SweepSafety.
Context `{Host}.

Lemma faces_in_range_grow (mesh : BMesh) (pts : list Vector) :
  faces_in_range mesh →
  faces_in_range {| verts := verts mesh ++ pts; faces := faces mesh |}.
Proof.
  unfold faces_in_range. cbn [verts faces]. intros Hmesh.
  eapply Forall_impl; [exact Hmesh|]. intros face Hface.
  eapply Forall_impl; [exact Hface|]. cbn. intros v Hv.
  rewrite length_app. lia.
Qed.

Lemma faces_in_range_new (mesh mesh' : BMesh) (face : list nat) :
  faces_in_range mesh →
  Forall (fun v => (v < length (verts mesh))%nat) face →
  faces_new mesh face = Ok mesh' →
  faces_in_range mesh' ∧ verts mesh' = verts mesh.
Proof.
  intros Hmesh Hface Hnew. apply faces_new_Ok in Hnew as (-> & _).
  split; [|done]. unfold faces_in_range. cbn [verts faces].
  apply Forall_app. split; [exact Hmesh|by constructor].
Qed.

Lemma getitem_in_range (bound : nat) (vs : list nat) (i : Z) (v : nat) :
  Forall (fun v => (v < bound)%nat) vs →
  py_getitem vs i = Ok v → (v < bound)%nat.
Proof.
  intros Hvs Hget. apply py_getitem_elem in Hget.
  rewrite Forall_forall in Hvs. by apply Hvs.
Qed.

Lemma getitem_opt_in_range (mesh : BMesh) (vs : option (list nat)) (i : Z)
    (v : nat) :
  ring_in_range mesh vs →
  py_getitem_opt vs i = Ok v → (v < length (verts mesh))%nat.
Proof.
  intros Hvs Hget. destruct vs as [ring|]; [|done].
  eapply getitem_in_range; [|exact Hget]. by apply Hvs.
Qed.

Lemma stitch_in_range (prev cur : list nat) (edges : list (Z * Z))
    (mesh mesh' : BMesh) :
  faces_in_range mesh →
  Forall (fun v => (v < length (verts mesh))%nat) prev →
  Forall (fun v => (v < length (verts mesh))%nat) cur →
  stitch prev cur edges mesh = Ok mesh' →
  faces_in_range mesh' ∧ verts mesh' = verts mesh.
Proof.
  intros Hmesh Hprev Hcur Hrun. unfold stitch in Hrun.
  eapply (for_each_invariant
            (fun m => faces_in_range m ∧ verts m = verts mesh));
    [|by split|exact Hrun].
  intros m [i j] m' [Hm Hverts] Hstep.
  apply bind_Ok_inv in Hstep as (v1 & Hv1 & Hstep).
  apply bind_Ok_inv in Hstep as (v2 & Hv2 & Hstep).
  apply bind_Ok_inv in Hstep as (v3 & Hv3 & Hstep).
  apply bind_Ok_inv in Hstep as (v4 & Hv4 & Hstep).
  apply faces_in_range_new in Hstep as [Hm' Hverts']; [by rewrite <- Hverts|done|].
  rewrite Hverts. repeat constructor; eauto using getitem_in_range.
Qed.

Lemma close_loop_in_range (first last : option (list nat))
    (edges : list (Z * Z)) (mesh mesh' : BMesh) :
  faces_in_range mesh →
  ring_in_range mesh first → ring_in_range mesh last →
  close_loop first last edges mesh = Ok mesh' →
  faces_in_range mesh'.
Proof.
  intros Hmesh Hfirst Hlast Hrun. unfold close_loop in Hrun.
  eapply proj1.
  eapply (for_each_invariant
            (fun m => faces_in_range m ∧ verts m = verts mesh));
    [|by split|exact Hrun].
  intros m [i j] m' [Hm Hverts] Hstep.
  apply bind_Ok_inv in Hstep as (v1 & Hv1 & Hstep).
  apply bind_Ok_inv in Hstep as (v2 & Hv2 & Hstep).
  apply bind_Ok_inv in Hstep as (v3 & Hv3 & Hstep).
  apply bind_Ok_inv in Hstep as (v4 & Hv4 & Hstep).
  apply faces_in_range_new in Hstep as [Hm' Hverts']; [by rewrite <- Hverts|done|].
  rewrite Hverts. repeat constructor; eauto using getitem_opt_in_range.
Qed.

Lemma cap_with_in_range (vs : option (list nat)) (bevel_faces : list (list Z))
    (backwards : bool) (mesh mesh' : BMesh) :
  faces_in_range mesh →
  ring_in_range mesh vs →
  cap_with vs bevel_faces backwards mesh = Ok mesh' →
  faces_in_range mesh' ∧ verts mesh' = verts mesh.
Proof.
  intros Hmesh Hvs Hrun. unfold cap_with in Hrun.
  destruct bevel_faces as [|face0 bevel_faces].
  - destruct vs as [ring|]; [|done].
    apply faces_in_range_new in Hrun; [done|done|].
    destruct backwards; [apply Forall_rev|]; by apply Hvs.
  - eapply (for_each_invariant
              (fun m => faces_in_range m ∧ verts m = verts mesh));
      [|by split|exact Hrun].
    intros m face m' [Hm Hverts] Hstep.
    apply bind_Ok_inv in Hstep as (cap & Hcap & Hstep).
    apply faces_in_range_new in Hstep as [Hm' Hverts'];
      [by rewrite <- Hverts|done|].
    rewrite Hverts.
    apply comprehension_Ok_Forall2 in Hcap.
    clear -Hcap Hvs. induction Hcap as [|i v l cap Hv _ IH]; constructor;
      [|exact IH].
    by eapply getitem_opt_in_range.
Qed.

Lemma sweep_step_in_range (self : Node) (bevel_verts : list Vector)
    (edges : list (Z * Z)) (st st' : SweepState) (station : Station) :
  faces_in_range st.1.1 ∧ ring_in_range st.1.1 st.1.2 ∧
    ring_in_range st.1.1 st.2 →
  sweep_step self bevel_verts edges st station = Ok st' →
  faces_in_range st'.1.1 ∧ ring_in_range st'.1.1 st'.1.2 ∧
    ring_in_range st'.1.1 st'.2.
Proof.
  destruct st as [[mesh prev] first].
  destruct station as [[[spline_vertex tangent] [scale_x scale_y]] twist_value].
  cbn [fst snd]. intros (Hmesh & Hprev & Hfirst) Hstep.
  rewrite sweep_step_unfold in Hstep.
  apply bind_Ok_inv in Hstep as (matrix & _ & Hstep).
  rewrite add_level_spec in Hstep.
  set (pts := map (fun bv => vadd (matvec matrix bv) spline_vertex) bevel_verts)
    in Hstep.
  set (mesh1 := {| verts := verts mesh ++ pts; faces := faces mesh |}) in Hstep.
  set (cur := seq (length (verts mesh)) (length bevel_verts)) in Hstep.
  assert (Hlen : length (verts mesh1) =
                 (length (verts mesh) + length bevel_verts)%nat).
  { subst mesh1 pts. cbn [verts]. by rewrite length_app, length_map. }
  assert (Hcur : Forall (fun v => (v < length (verts mesh1))%nat) cur).
  { apply Forall_forall. intros v Hv. apply elem_of_seq in Hv. lia. }
  assert (Hgrow : ∀ vs, ring_in_range mesh vs → ring_in_range mesh1 vs).
  { intros vs Hvs ring Hring. eapply Forall_impl; [by apply Hvs|].
    intros v Hv. change (v < length (verts mesh))%nat in Hv.
    change (v < length (verts mesh1))%nat. rewrite Hlen. lia. }
  apply bind_Ok_inv in Hstep as (mesh2 & Hstitch & Hstep).
  injection Hstep as <-. cbn [fst snd].
  assert (Hmesh2 : faces_in_range mesh2 ∧ verts mesh2 = verts mesh1).
  { destruct prev as [ring|].
    - eapply stitch_in_range; [| | |exact Hstitch].
      + by apply faces_in_range_grow.
      + by apply (Hgrow (Some ring)).
      + exact Hcur.
    - injection Hstitch as <-. split; [|done]. by apply faces_in_range_grow. }
  destruct Hmesh2 as [Hmesh2 Hverts].
  split; [exact Hmesh2|]. unfold ring_in_range. rewrite Hverts. split.
  - intros ring [= <-]. exact Hcur.
  - destruct first as [ring0|]; intros ring [= <-]; [|exact Hcur].
    by apply (Hgrow (Some ring0)).
Qed.

(** X16.  Whatever the inputs are, a mesh that [make_bevel] returns has
    no face that refers to a vertex the mesh does not have: every vertex
    handle in every face is below the number of vertices. *)
Theorem make_bevel_faces_in_range (self : Node) (curve bevel_verts : list Vector)
    (bevel_edges : list (Z * Z)) (bevel_faces : list (list Z))
    (taper twist : Spline) (steps : Z) (mesh : BMesh) :
  make_bevel self curve bevel_verts bevel_edges bevel_faces taper twist steps
    = Ok mesh →
  faces_in_range mesh.
Proof.
  unfold make_bevel. intros Hrun.
  apply bind_Ok_inv in Hrun as (spline & _ & Hrun).
  apply bind_Ok_inv in Hrun as (stations & _ & Hrun).
  apply bind_Ok_inv in Hrun as ([[mesh1 prev] first] & Hloop & Hrun).
  assert (Hinv : faces_in_range mesh1 ∧ ring_in_range mesh1 prev ∧
                 ring_in_range mesh1 first).
  { apply (for_each_invariant
             (fun st : SweepState =>
                faces_in_range st.1.1 ∧ ring_in_range st.1.1 st.1.2 ∧
                ring_in_range st.1.1 st.2)
             _ _ _ _ (fun st station st' => sweep_step_in_range self bevel_verts
                         (profile_edges bevel_edges bevel_faces) st st' station)
             ) in Hloop; [exact Hloop|].
    cbn. split; [constructor|]. by split. }
  destruct Hinv as (Hmesh1 & Hprev & Hfirst).
  destruct (is_cyclic self); cbn [negb] in Hrun.
  - exact (close_loop_in_range _ _ _ _ _ Hmesh1 Hfirst Hprev Hrun).
  - apply bind_Ok_inv in Hrun as (mesh2 & Hstart & Hrun).
    assert (Hmesh2 : faces_in_range mesh2 ∧ verts mesh2 = verts mesh1).
    { destruct (cap_start self).
      - exact (cap_with_in_range _ _ _ _ _ Hmesh1 Hfirst Hstart).
      - by injection Hstart as <-. }
    destruct Hmesh2 as [Hmesh2 Hverts].
    destruct (cap_end self && bool_decide (is_Some prev)).
    + eapply cap_with_in_range; [exact Hmesh2| |exact Hrun].
      unfold ring_in_range. by rewrite Hverts.
    + by injection Hrun as <-.
Qed.

Lemma sample_no_station (self : Node) (spline taper twist : Spline) :
  is_cyclic self = false →
  sample_stations self spline taper twist 0 = Ok [].
Proof.
  intros Hcyc. unfold sample_stations, linspace. cbn [Z.ltb Z.eqb Z.compare].
  cbn [mbind result_bind]. rewrite Hcyc.
  by destruct (flip_curve self), (flip_taper self), (flip_twist self).
Qed.

(** X17.  With step count 0 a non-cyclic sweep has no ring.  Its end cap
    is then left out, so that without [cap_start] the empty mesh is
    returned; its start cap is not, and with [cap_start] on and no
    profile faces the sweep raises TypeError.  The algorithm token is not
    looked at. *)
Theorem make_bevel_no_station (self : Node) (curve bevel_verts : list Vector)
    (bevel_edges : list (Z * Z)) (taper twist : Spline) :
  (2 ≤ length curve)%nat →
  is_cyclic self = false →
  make_bevel self curve bevel_verts bevel_edges [] taper twist 0 =
    if cap_start self then Raise TypeError else Ok bmesh_new.
Proof.
  intros Hpath Hcyc.
  destruct (build_spline_ok self curve (bevel_mode self) (is_cyclic self) None
              Hpath) as [spline Hspline].
  unfold make_bevel. rewrite Hspline. cbn [mbind result_bind].
  rewrite sample_no_station by done. cbn [mbind result_bind for_each].
  rewrite Hcyc. cbn [negb].
  destruct (cap_start self); [done|]. cbn [mbind result_bind].
  by rewrite andb_false_r.
Qed.

Lemma sample_cyclic_no_station (self : Node) (spline taper twist : Spline)
    (steps : Z) :
  is_cyclic self = true → (0 ≤ steps ≤ 1)%Z →
  sample_stations self spline taper twist steps = Ok [].
Proof.
  intros Hcyc Hsteps.
  assert (Hcases : steps = 0%Z ∨ steps = 1%Z) by lia.
  unfold sample_stations, linspace.
  destruct Hcases as [-> | ->]; cbn [Z.ltb Z.eqb Z.compare Pos.eqb];
    cbn [mbind result_bind]; rewrite Hcyc;
    by destruct (flip_curve self), (flip_taper self), (flip_twist self).
Qed.

(** X18.  A cyclic sweep with step count 0 or 1 has no ring either, the
    one sample being dropped: it returns the empty mesh when the profile
    has no edge to stitch along and raises TypeError, on subscripting
    [None], as soon as it has one. *)
Theorem make_bevel_cyclic_no_station (self : Node)
    (curve bevel_verts : list Vector) (bevel_edges : list (Z * Z))
    (bevel_faces : list (list Z)) (taper twist : Spline) (steps : Z) :
  (2 ≤ length curve)%nat →
  is_cyclic self = true →
  (0 ≤ steps ≤ 1)%Z →
  make_bevel self curve bevel_verts bevel_edges bevel_faces taper twist steps =
    match profile_edges bevel_edges bevel_faces with
    | [] => Ok bmesh_new
    | _ :: _ => Raise TypeError
    end.
Proof.
  intros Hpath Hcyc Hsteps.
  destruct (build_spline_ok self curve (bevel_mode self) (is_cyclic self) None
              Hpath) as [spline Hspline].
  unfold make_bevel. rewrite Hspline. cbn [mbind result_bind].
  rewrite sample_cyclic_no_station by done. cbn [mbind result_bind for_each].
  rewrite Hcyc. cbn [negb].
  by destruct (profile_edges bevel_edges bevel_faces) as [|[i j] edges].
Qed.

Lemma faces_new_quad_Raise (mesh : BMesh) (a b c d : nat) (e : exn) :
  faces_new mesh [a; b; c; d] = Raise e → e = ValueError.
Proof.
  unfold faces_new. rewrite bool_decide_false by (cbn; lia).
  repeat case_bool_decide; congruence.
Qed.

Lemma stitch_bad_edge (k : nat) (prev cur : list nat) (edges : list (Z * Z))
    (mesh : BMesh) :
  length prev = k → length cur = k →
  Exists (fun e => ¬ SplitMesh.py_index k e.1 ∨ ¬ SplitMesh.py_index k e.2)
         edges →
  stitch prev cur edges mesh = Raise IndexError ∨
  stitch prev cur edges mesh = Raise ValueError.
Proof.
  intros Hprev Hcur Hbad. unfold stitch. revert mesh.
  induction edges as [|[i j] edges IH]; intros mesh.
  - by apply Exists_nil in Hbad.
  - cbn [for_each].
    destruct (py_getitem prev i) as [v1|e] eqn:Hv1;
      [|apply py_getitem_Raise in Hv1 as ->; by left].
    destruct (py_getitem cur i) as [v2|e] eqn:Hv2;
      [|apply py_getitem_Raise in Hv2 as ->; by left].
    destruct (py_getitem cur j) as [v3|e] eqn:Hv3;
      [|apply py_getitem_Raise in Hv3 as ->; by left].
    destruct (py_getitem prev j) as [v4|e] eqn:Hv4;
      [|apply py_getitem_Raise in Hv4 as ->; by left].
    cbn [mbind result_bind].
    assert (Hrest : Exists (fun e => ¬ SplitMesh.py_index k e.1 ∨
                                     ¬ SplitMesh.py_index k e.2) edges).
    { apply Exists_cons in Hbad as [[Hi|Hj]|Hbad]; [| |exact Hbad].
      - apply py_getitem_Ok_index in Hv1. rewrite Hprev in Hv1. done.
      - apply py_getitem_Ok_index in Hv4. rewrite Hprev in Hv4. done. }
    destruct (faces_new mesh [v4; v3; v2; v1]) as [mesh'|e] eqn:Hnew.
    + cbn [mbind result_bind]. by apply IH.
    + apply faces_new_quad_Raise in Hnew as ->. by right.
Qed.

Lemma for_each_app {S X} (body : S → X → result S) (xs ys : list X) (s : S) :
  for_each body (xs ++ ys) s = s' ← for_each body xs s; for_each body ys s'.
Proof.
  revert s. induction xs as [|x xs IH]; intros s; [done|].
  cbn [app for_each]. destruct (body s x) as [s1|e]; [|done].
  cbn [mbind result_bind]. apply IH.
Qed.

Lemma stitch_first_bad (k base : nat) (prev : list nat)
    (good : list (Z * Z)) (e : Z * Z) (rest : list (Z * Z)) (mesh : BMesh) :
  length prev = k → NoDup prev → Forall (fun v => (v < base)%nat) prev →
  proper_edges k good →
  Forall (Forall (fun v => (v < base)%nat)) (faces mesh) →
  ¬ SplitMesh.py_index k e.1 ∨ ¬ SplitMesh.py_index k e.2 →
  stitch prev (seq base k) (good ++ e :: rest) mesh = Raise IndexError.
Proof.
  intros Hlen Hnd Hlow Hgood Hold Hbad.
  pose proof (stitch_spec k base prev good mesh Hlen Hnd Hlow Hgood Hold)
    as Hrun.
  unfold stitch in *. rewrite for_each_app, Hrun. cbn [mbind result_bind].
  destruct e as [i j]. cbn [for_each fst snd] in *.
  destruct (py_getitem prev i) as [v1|e] eqn:Hv1;
    [|apply py_getitem_Raise in Hv1 as ->; done].
  destruct (py_getitem (seq base k) i) as [v2|e] eqn:Hv2;
    [|apply py_getitem_Raise in Hv2 as ->; done].
  destruct (py_getitem (seq base k) j) as [v3|e] eqn:Hv3;
    [|apply py_getitem_Raise in Hv3 as ->; done].
  destruct (py_getitem prev j) as [v4|e] eqn:Hv4;
    [|apply py_getitem_Raise in Hv4 as ->; done].
  exfalso. destruct Hbad as [Hi|Hj].
  - apply py_getitem_Ok_index in Hv1. rewrite Hlen in Hv1. done.
  - apply py_getitem_Ok_index in Hv4. rewrite Hlen in Hv4. done.
Qed.

(** X19.  A profile edge with an index that no subscript of the profile
    ring accepts stops the sweep as soon as there are two rings to
    stitch: no mesh comes out.  The exception is IndexError when the
    edges before that edge are edges the mesh takes a quad along (each
    joins two different profile vertices, no two of them the same two);
    in any case it is IndexError or the ValueError of the mesh for a
    quad it refuses before the edge is reached. *)
Theorem make_bevel_bad_edge (self : Node) (curve bevel_verts : list Vector)
    (bevel_edges : list (Z * Z)) (bevel_faces : list (list Z))
    (taper twist : Spline) (steps : Z) :
  (2 ≤ length curve)%nat →
  frame_defined self →
  (0 ≤ steps)%Z →
  (2 ≤ station_count self steps)%nat →
  Exists (fun e => ¬ SplitMesh.py_index (length bevel_verts) e.1 ∨
                   ¬ SplitMesh.py_index (length bevel_verts) e.2)
         (profile_edges bevel_edges bevel_faces) →
  (make_bevel self curve bevel_verts bevel_edges bevel_faces taper twist steps =
     Raise IndexError ∨
   make_bevel self curve bevel_verts bevel_edges bevel_faces taper twist steps =
     Raise ValueError) ∧
  (∀ good e rest,
     profile_edges bevel_edges bevel_faces = good ++ e :: rest →
     proper_edges (length bevel_verts) good →
     ¬ SplitMesh.py_index (length bevel_verts) e.1 ∨
     ¬ SplitMesh.py_index (length bevel_verts) e.2 →
     make_bevel self curve bevel_verts bevel_edges bevel_faces taper twist steps =
       Raise IndexError).
Proof.
  intros Hpath Hframe Hsteps Hcount Hbad.
  destruct (build_spline_ok self curve (bevel_mode self) (is_cyclic self) None
              Hpath) as [spline Hspline].
  destruct (length_sample_stations self spline taper twist steps Hsteps)
    as (stations & Hst & Hlen).
  unfold make_bevel. rewrite Hspline. cbn [mbind result_bind].
  rewrite Hst. cbn [mbind result_bind].
  destruct stations as [|s1 [|s2 stations]]; [cbn in Hlen; lia..|].
  destruct s1 as [[[p1 t1] [sx1 sy1]] tw1].
  destruct s2 as [[[p2 t2] [sx2 sy2]] tw2].
  destruct (get_matrix_defined self t1 tw1 sx1 sy1 Hframe) as [m1 Hm1].
  destruct (get_matrix_defined self t2 tw2 sx2 sy2 Hframe) as [m2 Hm2].
  cbn [for_each].
  rewrite sweep_step_unfold, Hm1. cbn [mbind result_bind].
  rewrite add_level_spec. cbn [mbind result_bind].
  rewrite sweep_step_unfold, Hm2. cbn [mbind result_bind].
  rewrite add_level_spec. cbn [verts faces bmesh_new app length].
  rewrite length_map.
  set (k := length bevel_verts) in *.
  split.
  - destruct (stitch_bad_edge k (seq 0 k) (seq k k)
                (profile_edges bevel_edges bevel_faces)
                {| verts := map (fun bv => vadd (matvec m1 bv) p1) bevel_verts ++
                            map (fun bv => vadd (matvec m2 bv) p2) bevel_verts;
                   faces := [] |}) as [-> | ->];
      [apply length_seq|apply length_seq|exact Hbad|by left|by right].
  - intros good e rest -> Hgood He.
    rewrite (stitch_first_bad k k (seq 0 k) good e rest); [done|..|exact He].
    + apply length_seq.
    + apply NoDup_seq.
    + apply Forall_forall. intros v Hv. apply elem_of_seq in Hv. lia.
    + exact Hgood.
    + constructor.
Qed.

(** X20.  When profile edges are given and no cap is asked for, the
    profile faces make no difference to the sweep: the result, mesh or
    exception, is the one without them. *)
Theorem make_bevel_faces_only_for_caps (self : Node)
    (curve bevel_verts : list Vector) (bevel_edges : list (Z * Z))
    (bevel_faces : list (list Z)) (taper twist : Spline) (steps : Z) :
  bevel_edges ≠ [] →
  is_cyclic self = true ∨ (cap_start self = false ∧ cap_end self = false) →
  make_bevel self curve bevel_verts bevel_edges bevel_faces taper twist steps =
  make_bevel self curve bevel_verts bevel_edges [] taper twist steps.
Proof.
  intros Hedges Hcaps. unfold make_bevel.
  assert (Hpe : ∀ fs, profile_edges bevel_edges fs = bevel_edges).
  { intros fs. by destruct bevel_edges. }
  rewrite !Hpe.
  destruct (build_spline _ _ _ _ _) as [spline|e]; [|done].
  cbn [mbind result_bind].
  destruct (sample_stations _ _ _ _ _) as [stations|e]; [|done].
  cbn [mbind result_bind].
  destruct (for_each _ _ _) as [[[mesh prev] first]|e]; [|done].
  cbn [mbind result_bind].
  destruct Hcaps as [-> | [-> ->]]; [done|].
  destruct (is_cyclic self); reflexivity.
Qed.

(** X21.  The taper and the twist are optional: with no taper vertices
    and no twist data the node makes its own splines and sweeps.  On a
    path of two points or more, with a frame that is defined, profile
    edges the mesh takes quads along, and a step count of 2 or more (4 or
    more when cyclic), a mesh is returned, with one ring of the profile's
    vertices per station.  Caps are asked for over whole rings of three
    vertices or more. *)
Theorem bevel_item_optional_inputs (self : Node)
    (curve bevel_verts : list Vector) (bevel_edges : list (Z * Z))
    (bevel_faces : list (list Z)) (twist_data : option (list TwistItem))
    (steps : Z) :
  twist_data = None ∨ twist_data = Some [] →
  (2 ≤ length curve)%nat →
  frame_defined self →
  (if is_cyclic self then 4 ≤ steps else 2 ≤ steps)%Z →
  proper_edges (length bevel_verts) (profile_edges bevel_edges bevel_faces) →
  (is_cyclic self = false → cap_start self || cap_end self = true →
   bevel_faces = [] ∧ (3 ≤ length bevel_verts)%nat) →
  ∃ mesh,
    bevel_item self curve bevel_verts bevel_edges bevel_faces [] twist_data steps
      = Ok mesh ∧
    length (verts mesh) = (length bevel_verts * station_count self steps)%nat.
Proof.
  intros Htwist Hpath Hframe Hsteps Hedges Hcaps.
  unfold bevel_item. rewrite make_taper_spline_default.
  cbn [mbind result_bind].
  assert (Hs : ∃ twist, make_twist_spline self twist_data = Ok twist)
    by (destruct Htwist as [-> | ->]; by eexists).
  destruct Hs as [twist ->]. cbn [mbind result_bind].
  unfold station_count. destruct (is_cyclic self) eqn:Hcyc.
  - match goal with
    | |- context [make_bevel self curve bevel_verts bevel_edges bevel_faces ?tp ?tw steps] =>
        destruct (make_bevel_closed self curve bevel_verts bevel_edges
                    bevel_faces tp tw steps) as (vs & Hvs & Hmesh);
          auto; try lia
    end.
    eexists. split; [exact Hmesh|]. exact Hvs.
  - match goal with
    | |- context [make_bevel self curve bevel_verts bevel_edges bevel_faces ?tp ?tw steps] =>
        destruct (make_bevel_open self curve bevel_verts bevel_edges
                    bevel_faces tp tw steps) as (vs & Hvs & Hmesh);
          auto; try lia
    end.
    eexists. split; [exact Hmesh|]. exact Hvs.
Qed.

End SweepSafety.

(** *** The properties above on the swept square *)

(** Two pairs: angle 0 at parameter 0, angle 1 at parameter 1. *)
Lemma twist_pairs_kept_witness :
  (2 ≤ length [(0%R, 0%R); (1%R, 1%R)])%nat ∧
  ∃ s, make_twist_spline default_node
         (Some (map (fun p => TwistPair p.1 p.2) [(0%R, 0%R); (1%R, 1%R)]))
         = Ok s ∧
       map get_twist_value (spl_pts s) = map snd [(0%R, 0%R); (1%R, 1%R)] ∧
       map vz (spl_pts s) = map fst [(0%R, 0%R); (1%R, 1%R)] ∧
       spl_cyclic s = is_cyclic default_node.
Proof.
  split; [cbn; lia|].
  apply (twist_pairs_kept default_node [(0%R, 0%R); (1%R, 1%R)]). cbn; lia.
Defined.

(** A pair followed by a bare angle. *)
Lemma twist_mixed_shapes_witness :
  make_twist_spline default_node (Some [TwistPair 0 0; TwistAngle 1]) =
    Raise TypeError.
Proof.
  apply (twist_mixed_shapes_raise default_node (TwistPair 0 0) [TwistAngle 1]).
  apply Exists_cons_hd. exact I.
Defined.

(** The unlinked Twist socket, whose data is the empty list. *)
Lemma default_twist_witness :
  ∃ s, make_twist_spline default_node (Some []) = Ok s ∧
       get_twist_value (spline_eval (H := example_host) s (1 / 2)) = 0.
Proof.
  apply (default_twist_is_zero (H := example_host) default_node (Some [])
           (1 / 2)).
  right. reflexivity.
Defined.

(** The capped square of the scenario. *)
Lemma make_bevel_faces_in_range_witness :
  ∃ mesh,
    make_bevel (H := example_host) (with_flags default_node false true true)
               straight_path square (ring_edges 4) []
               default_taper default_twist 5 = Ok mesh ∧
    faces_in_range mesh.
Proof.
  destruct (make_bevel_open (H := example_host)
              (with_flags default_node false true true)
              straight_path square (ring_edges 4) [] default_taper
              default_twist 5)
    as (vs & _ & Hmesh);
    [reflexivity | cbn; lia | apply (default_frame_defined false true true)
    | lia | apply proper_square_edges | intros _; split; [done | cbn; lia]
    | intros _; lia | ].
  eexists. split; [exact Hmesh|].
  exact (make_bevel_faces_in_range (H := example_host) _ _ _ _ _ _ _ _ _ Hmesh).
Defined.

(** Step count 0 and a start cap. *)
Lemma make_bevel_no_station_witness :
  (2 ≤ length straight_path)%nat ∧
  make_bevel (H := example_host) (with_flags default_node false true true)
             straight_path square (ring_edges 4) []
             default_taper default_twist 0 = Raise TypeError.
Proof.
  split; [cbn; lia|].
  apply (make_bevel_no_station (H := example_host)
           (with_flags default_node false true true) straight_path square
           (ring_edges 4) default_taper default_twist);
    [cbn; lia | reflexivity].
Defined.

(** Step count 1 on a cyclic sweep of the square. *)
Lemma make_bevel_cyclic_no_station_witness :
  (2 ≤ length straight_path)%nat ∧ (0 ≤ 1 ≤ 1)%Z ∧
  make_bevel (H := example_host) (with_flags default_node true false false)
             straight_path square [(0, 1)]%Z []
             default_taper default_twist 1 = Raise TypeError.
Proof.
  split; [cbn; lia|]. split; [lia|].
  apply (make_bevel_cyclic_no_station (H := example_host)
           (with_flags default_node true false false) straight_path square
           [(0, 1)]%Z [] default_taper default_twist 1);
    [cbn; lia | reflexivity | lia].
Defined.

(** The square with an edge to a fifth vertex it does not have. *)
Lemma make_bevel_bad_edge_witness :
  (2 ≤ length straight_path)%nat ∧ (2 ≤ station_count default_node 5)%nat ∧
  make_bevel (H := example_host) default_node straight_path square
             [(0, 1); (1, 4)]%Z [] default_taper default_twist 5 =
    Raise IndexError.
Proof.
  split; [cbn; lia|]. split; [cbn; lia|].
  apply (make_bevel_bad_edge (H := example_host) default_node straight_path
           square [(0, 1); (1, 4)]%Z [] default_taper default_twist 5)
    with (good := [(0, 1)%Z]) (e := (1, 4)%Z) (rest := []).
  - cbn; lia.
  - apply (default_frame_defined false false false).
  - lia.
  - cbn; lia.
  - apply Exists_cons_tl, Exists_cons_hd. right.
    unfold SplitMesh.py_index. cbn. lia.
  - reflexivity.
  - split; [|split].
    + repeat constructor; cbn; lia.
    + repeat constructor; cbn; lia.
    + cbn. apply NoDup_singleton.
  - right. unfold SplitMesh.py_index. cbn. lia.
Defined.

(** The square with its edges and its one face, swept without caps. *)
Lemma make_bevel_faces_only_for_caps_witness :
  make_bevel (H := example_host) default_node straight_path square
             [(0, 1); (1, 2); (2, 3); (3, 0)]%Z [[0; 1; 2; 3]]%Z
             default_taper default_twist 5 =
  make_bevel (H := example_host) default_node straight_path square
             [(0, 1); (1, 2); (2, 3); (3, 0)]%Z []
             default_taper default_twist 5.
Proof.
  apply (make_bevel_faces_only_for_caps (H := example_host) default_node
           straight_path square [(0, 1); (1, 2); (2, 3); (3, 0)]%Z
           [[0; 1; 2; 3]]%Z default_taper default_twist 5).
  - discriminate.
  - right. split; reflexivity.
Defined.

(** The square along the straight path, nothing linked to the taper and
    twist inputs: five rings of four vertices. *)
Lemma bevel_item_optional_inputs_witness :
  (2 ≤ length straight_path)%nat ∧ (2 ≤ 5)%Z ∧
  ∃ mesh,
    bevel_item (H := example_host) default_node straight_path square
               (ring_edges 4) [] [] (Some []) 5 = Ok mesh ∧
    length (verts mesh) = (length square * station_count default_node 5)%nat.
Proof.
  split; [cbn; lia|]. split; [lia|].
  apply (bevel_item_optional_inputs (H := example_host) default_node
           straight_path square (ring_edges 4) [] (Some []) 5).
  - right. reflexivity.
  - cbn; lia.
  - apply (default_frame_defined false false false).
  - cbn; lia.
  - exact proper_square_edges.
  - intros _ Hcap. discriminate Hcap.
Defined.

End BevelCurveProps.

(** ** Properties of the split node *)

Module SplitMeshProps.
Import SplitMesh.

Lemma py_getitem_py_index {A} (l : list A) (i : Z) :
  py_index (length l) i → ∃ a, py_getitem l i = Ok a.
Proof.
  unfold py_index, py_getitem. intros Hi.
  destruct (Z.ltb_spec i 0).
  - destruct (Z.ltb_spec (i + Z.of_nat (length l)) 0); [lia|].
    destruct (lookup_lt_is_Some_2 l (Z.to_nat (i + Z.of_nat (length l))))
      as [a ->]; [lia|]. by exists a.
  - destruct (Z.ltb_spec i 0); [lia|].
    destruct (lookup_lt_is_Some_2 l (Z.to_nat i)) as [a ->]; [lia|]. by exists a.
Qed.

Section Split.
Context `{UtilsSpec} {V : Type}.
Implicit Types (verts : list V) (st : SplitState (V := V)).

Lemma split_inv_push verts st (i : Z) (v : V) (m : gmap Z nat) :
  split_inv verts st →
  py_getitem verts i = Ok v →
  map_Forall (fun _ j => (j < S (length (out_verts st)))%nat) m →
  split_inv verts {| out_verts := out_verts st ++ [v];
                     old_v_indexes := old_v_indexes st ++ [i];
                     old_new_verts := m |}.
Proof.
  intros [Hlen Horigin Hdict] Hv Hm. split; cbn.
  - rewrite !length_app, Hlen. reflexivity.
  - intros p w Hp. apply lookup_snoc_Some in Hp as [[Hlt Hp]|[-> ->]].
    + destruct (Horigin p w Hp) as (j & Hj & Hw).
      exists j. split; [|exact Hw]. rewrite lookup_app_l by lia. exact Hj.
    + exists i. split; [|exact Hv]. rewrite <- Hlen. apply list_lookup_middle.
      reflexivity.
  - rewrite length_app. cbn. by rewrite Nat.add_1_r.
Qed.

Lemma split_vertex_spec verts (selected_verts : list bool) st
    (new_face : list nat) (i : Z) :
  length selected_verts = length verts →
  py_index (length verts) i →
  split_inv verts st →
  Forall (fun j => (j < length (out_verts st))%nat) new_face →
  ∃ st' j,
    split_vertex verts selected_verts (st, new_face) i = Ok (st', new_face ++ [j]) ∧
    split_inv verts st' ∧
    (length (out_verts st) ≤ length (out_verts st'))%nat ∧
    (j < length (out_verts st'))%nat.
Proof.
  intros Hsel Hi Hinv Hface.
  destruct (py_getitem_py_index selected_verts i) as [selected Hs];
    [by rewrite Hsel|].
  destruct (py_getitem_py_index verts i Hi) as [v Hv].
  assert (Hgrow : map_Forall (fun _ j => (j < S (length (out_verts st)))%nat)
                             (old_new_verts st)).
  { eapply map_Forall_impl; [apply Hinv|]. cbn. lia. }
  unfold split_vertex. rewrite Hs. cbn [mbind result_bind].
  destruct selected.
  - rewrite Hv. cbn [mbind result_bind].
    eexists _, _. split; [reflexivity|]. split; [|split].
    + by apply split_inv_push.
    + cbn. rewrite length_app. lia.
    + cbn. rewrite length_app. cbn. lia.
  - destruct (old_new_verts st !! i) as [j|] eqn:Hj.
    + eexists _, _. split; [reflexivity|]. split; [exact Hinv|].
      split; [lia|]. by apply (inv_dict _ _ Hinv i j).
    + rewrite Hv. cbn [mbind result_bind].
      eexists _, _. split; [reflexivity|]. split; [|split].
      * apply split_inv_push; [done..|].
        apply map_Forall_insert_2; [|exact Hgrow].
        rewrite length_app. cbn. lia.
      * cbn. rewrite length_app. lia.
      * cbn. rewrite length_app. cbn. lia.
Qed.

Lemma split_vertices_spec verts (selected_verts : list bool) (face : list Z) :
  length selected_verts = length verts →
  Forall (py_index (length verts)) face →
  ∀ st (new_face : list nat),
    split_inv verts st →
    Forall (fun j => (j < length (out_verts st))%nat) new_face →
    ∃ st' added,
      for_each (split_vertex verts selected_verts) face (st, new_face) =
        Ok (st', new_face ++ added) ∧
      split_inv verts st' ∧
      (length (out_verts st) ≤ length (out_verts st'))%nat ∧
      length added = length face ∧
      Forall (fun j => (j < length (out_verts st'))%nat) (new_face ++ added).
Proof.
  intros Hsel Hface.
  induction Hface as [|i face Hi _ IH]; intros st new_face Hinv Hnew.
  - exists st, []. rewrite app_nil_r.
    split; [reflexivity|]. split; [exact Hinv|]. split; [lia|].
    split; [reflexivity|exact Hnew].
  - destruct (split_vertex_spec verts selected_verts st new_face i)
      as (st1 & j & Hstep & Hinv1 & Hle1 & Hj); auto.
    destruct (IH st1 (new_face ++ [j])) as (st2 & added & Hrest & Hinv2 & Hle2 & Hlen & Hall).
    { exact Hinv1. }
    { apply Forall_app. split.
      - eapply Forall_impl; [exact Hnew|]. cbn. lia.
      - by constructor. }
    exists st2, (j :: added).
    cbn [for_each]. rewrite Hstep. cbn [mbind result_bind].
    rewrite Hrest, <- app_assoc. cbn [app].
    split; [reflexivity|]. split; [exact Hinv2|]. split; [lia|].
    split; [cbn; by rewrite Hlen|].
    by rewrite <- app_assoc in Hall.
Qed.

Lemma split_faces_spec verts (selected_verts : list bool) (faces : list (list Z)) :
  length selected_verts = length verts →
  Forall (Forall (py_index (length verts))) faces →
  ∀ st (out_faces : list (list nat)),
    split_inv verts st →
    Forall (Forall (fun j => (j < length (out_verts st))%nat)) out_faces →
    ∃ st' added,
      for_each (split_face verts selected_verts) faces (st, out_faces) =
        Ok (st', out_faces ++ added) ∧
      split_inv verts st' ∧
      Forall2 (fun face new_face => length new_face = length face) faces added ∧
      Forall (Forall (fun j => (j < length (out_verts st'))%nat))
             (out_faces ++ added).
Proof.
  intros Hsel Hfaces.
  induction Hfaces as [|face faces Hface _ IH]; intros st out_faces Hinv Hout.
  - exists st, []. rewrite app_nil_r.
    split; [reflexivity|]. split; [exact Hinv|].
    split; [constructor|exact Hout].
  - destruct (split_vertices_spec verts selected_verts face Hsel Hface st [] Hinv)
      as (st1 & new_face & Hstep & Hinv1 & Hle1 & Hlen & Hall); [by constructor|].
    cbn [app] in Hstep, Hall.
    destruct (IH st1 (out_faces ++ [new_face]))
      as (st2 & added & Hrest & Hinv2 & Hlens & Hall2).
    { exact Hinv1. }
    { apply Forall_app. split.
      - eapply Forall_impl; [exact Hout|]. cbn. intros f Hf.
        eapply Forall_impl; [exact Hf|]. cbn. lia.
      - by constructor. }
    exists st2, (new_face :: added).
    cbn [for_each].
    change (split_face verts selected_verts (st, out_faces) face)
      with ('(st, new_face) ←
              for_each (split_vertex verts selected_verts) face (st, []);
            Ok (st, out_faces ++ [new_face])).
    rewrite Hstep.
    cbn [mbind result_bind]. rewrite Hrest, <- app_assoc. cbn [app].
    split; [reflexivity|]. split; [exact Hinv2|].
    split; [by constructor|].
    by rewrite <- app_assoc in Hall2.
Qed.

Lemma split_edges_ok (edges : option (list (Z * Z)))
    (out_faces : list (list nat)) (old_v : list Z) :
  Forall (Forall (fun j => (j < length old_v)%nat)) out_faces →
  ∃ out_edges old_e_indexes,
    split_edges edges out_faces old_v = Ok (out_edges, old_e_indexes).
Proof.
  intros Hfaces. unfold split_edges.
  destruct edges as [[|e edges]|]; [by eexists _, _| |by eexists _, _].
  set (edge_indexes := edge_index_map (e :: edges)).
  assert (Hread : ∀ j : nat, (j < length old_v)%nat →
            py_getitem old_v (Z.of_nat j) = Ok (nth j old_v 0%Z)).
  { intros j Hj. destruct (lookup_lt_is_Some_2 old_v j Hj) as [a Ha].
    rewrite (py_getitem_lookup _ _ _ Ha). f_equal. symmetry.
    by apply nth_lookup_Some. }
  rewrite (comprehension_ok _ (fun edge : nat * nat =>
      match edge_indexes !! sorted_edge (nth edge.1 old_v 0%Z) (nth edge.2 old_v 0%Z) with
      | Some i => Z.of_nat i
      | None => (-1)%Z
      end)).
  { by eexists _, _. }
  apply Forall_forall. intros [a b] Hab.
  destruct (polygons_to_edges_np_ends _ _ _ Hab)
    as [(fa & Hfa & Ha) (fb & Hfb & Hb)].
  assert (Hlt : ∀ f j, f ∈ out_faces → j ∈ f → (j < length old_v)%nat).
  { intros f j Hf Hj.
    rewrite Forall_forall in Hfaces. specialize (Hfaces f Hf).
    rewrite Forall_forall in Hfaces. exact (Hfaces j Hj). }
  cbn. rewrite !Hread by eauto. reflexivity.
Qed.

(** C9.  When every index in the faces is one a subscript of [verts]
    accepts, [split_by_vertices] returns; every index in the returned
    faces is below the number of returned vertices; the returned faces
    are as many as the input faces and the i-th has the length of the
    i-th input face; and [old_v_indexes] has one entry per returned
    vertex, the index of the input vertex it is a copy of. *)
Theorem C9_split_by_vertices_indices verts (edges : option (list (Z * Z)))
    (faces : option (list (list Z))) (selected_verts : option (list bool)) :
  Forall (Forall (py_index (length verts))) (default [] faces) →
  ∃ out_vs out_edges out_faces old_v old_e old_f,
    split_by_vertices verts edges faces selected_verts =
      Ok (out_vs, out_edges, out_faces, old_v, old_e, old_f) ∧
    Forall (Forall (fun j => (j < length out_vs)%nat)) out_faces ∧
    Forall2 (fun face new_face => length new_face = length face)
            (default [] faces) out_faces ∧
    length old_v = length out_vs ∧
    (∀ p v, out_vs !! p = Some v →
       ∃ i, old_v !! p = Some i ∧ py_getitem verts i = Ok v).
Proof.
  intros Hfaces. unfold split_by_vertices.
  set (selected := match selected_verts with
                   | None | Some [] => replicate (length verts) true
                   | Some sel =>
                       if bool_decide (length sel ≠ length verts)
                       then fixed_iter sel (length verts) else sel
                   end).
  assert (Hsel : length selected = length verts).
  { subst selected. destruct selected_verts as [[|b sel]|];
      [apply length_replicate| |apply length_replicate].
    case_bool_decide as Hne; [apply length_fixed_iter|].
    destruct (decide (length (b :: sel) = length verts)); [done|]. by destruct Hne. }
  destruct (split_faces_spec verts selected (default [] faces) Hsel Hfaces
              {| out_verts := []; old_v_indexes := []; old_new_verts := ∅ |} [])
    as (st & out_faces & Hloop & Hinv & Hlens & Hall).
  { split; cbn; [done| |apply map_Forall_empty]. intros p v Hp.
    by rewrite lookup_nil in Hp. }
  { constructor. }
  cbn [app] in Hloop, Hall.
  cbv zeta. rewrite Hloop. cbn [mbind result_bind].
  destruct (split_edges_ok edges out_faces (old_v_indexes st))
    as (out_edges & old_e & Hedges).
  { by rewrite (inv_length _ _ Hinv). }
  rewrite Hedges. cbn [mbind result_bind].
  eexists _, _, _, _, _, _. split; [reflexivity|].
  split; [exact Hall|]. split; [exact Hlens|].
  split; [apply Hinv|apply Hinv].
Qed.

End Split.

Lemma length_pad_or_cut (data : list bool) (n : nat) :
  length (pad_or_cut data n) = n.
Proof.
  unfold pad_or_cut. rewrite length_take, length_app, length_replicate. lia.
Qed.

Lemma polygon_sides_ends (polygons : list (list nat)) (a b : nat) :
  (a, b) ∈ polygon_sides polygons →
  (∃ face, face ∈ polygons ∧ a ∈ face) ∧ (∃ face, face ∈ polygons ∧ b ∈ face).
Proof.
  unfold polygon_sides. intros Hab.
  apply list_elem_of_In, in_flat_map in Hab as (face & Hface & Hab).
  apply list_elem_of_In in Hface, Hab.
  split; exists face; (split; [exact Hface|]).
  - by apply elem_of_zip_l in Hab.
  - apply elem_of_zip_r in Hab. apply elem_of_app in Hab as [Hb|Hb].
    + by apply (subseteq_drop 1 face).
    + by apply (subseteq_take 1 face).
Qed.

Lemma example_utils_spec : UtilsSpec (H := example_utils).
Proof. split; [apply length_pad_or_cut|apply polygon_sides_ends]. Qed.

(** Two triangles sharing an edge, the shared vertices not selected. *)
Lemma C9_two_triangles_witness :
  Forall (Forall (py_index 4)) [[0; 1; 2]; [2; 1; 3]]%Z ∧
  ∃ out_vs out_edges out_faces old_v old_e old_f,
    split_by_vertices (H := example_utils) [10; 11; 12; 13]%nat
                      (Some [(0, 1); (1, 2)]%Z)
                      (Some [[0; 1; 2]; [2; 1; 3]]%Z)
                      (Some [true; false; false; true]) =
      Ok (out_vs, out_edges, out_faces, old_v, old_e, old_f) ∧
    Forall (Forall (fun j => (j < length out_vs)%nat)) out_faces ∧
    Forall2 (fun face new_face => length new_face = length face)
            [[0; 1; 2]; [2; 1; 3]]%Z out_faces ∧
    length old_v = length out_vs ∧
    (∀ p v, out_vs !! p = Some v →
       ∃ i, old_v !! p = Some i ∧ py_getitem [10; 11; 12; 13]%nat i = Ok v).
Proof.
  assert (Hvalid : Forall (Forall (py_index 4)) [[0; 1; 2]; [2; 1; 3]]%Z).
  { repeat constructor; unfold py_index; lia. }
  split; [exact Hvalid|].
  exact (C9_split_by_vertices_indices (H := example_utils)
           (H0 := example_utils_spec) [10; 11; 12; 13]%nat
           (Some [(0, 1); (1, 2)]%Z) (Some [[0; 1; 2]; [2; 1; 3]]%Z)
           (Some [true; false; false; true]) Hvalid).
Defined.

(** *** Where the split vertices come from *)

Section Tracking.
Context `{UtilsSpec} {V : Type}.
Implicit Types (verts : list V) (st : SplitState (V := V)).

Lemma length_selection_of verts (selected_verts : option (list bool)) :
  length (selection_of verts selected_verts) = length verts.
Proof.
  unfold selection_of. destruct selected_verts as [[|b sel]|];
    [apply length_replicate| |apply length_replicate].
  case_bool_decide as Hne; [apply length_fixed_iter|].
  destruct (decide (length (b :: sel) = length verts)); [done|]. by destruct Hne.
Qed.

Lemma split_by_vertices_unfold verts (edges : option (list (Z * Z)))
    (faces : option (list (list Z))) (selected_verts : option (list bool)) :
  split_by_vertices verts edges faces selected_verts =
    '(st, out_faces) ←
      for_each (split_face verts (selection_of verts selected_verts))
               (default [] faces)
               ({| out_verts := []; old_v_indexes := []; old_new_verts := ∅ |}, []);
    '(out_edges, old_e_indexes) ← split_edges edges out_faces (old_v_indexes st);
    Ok (out_verts st, out_edges, out_faces, old_v_indexes st, old_e_indexes,
        seq 0 (length (default [] faces))).
Proof. reflexivity. Qed.

Lemma split_vertex_track verts (selected_verts : list bool) st
    (new_face : list nat) (i : Z) :
  length selected_verts = length verts →
  py_index (length verts) i →
  split_inv verts st →
  split_tracks selected_verts st →
  ∃ st' j,
    split_vertex verts selected_verts (st, new_face) i = Ok (st', new_face ++ [j]) ∧
    split_inv verts st' ∧
    split_tracks selected_verts st' ∧
    old_v_indexes st `prefix_of` old_v_indexes st' ∧
    old_v_indexes st' !! j = Some i.
Proof.
  intros Hsel Hi Hinv [Hdict Honce].
  destruct (py_getitem_py_index selected_verts i) as [selected Hs];
    [by rewrite Hsel|].
  destruct (py_getitem_py_index verts i Hi) as [v Hv].
  pose proof (inv_length _ _ Hinv) as Hlen.
  assert (Hgrow : map_Forall (fun _ j => (j < S (length (out_verts st)))%nat)
                             (old_new_verts st)).
  { eapply map_Forall_impl; [apply Hinv|]. cbn. lia. }
  assert (Hnew : (length (out_verts st ++ [v]) - 1)%nat = length (old_v_indexes st)).
  { rewrite length_app. cbn. lia. }
  unfold split_vertex. rewrite Hs. cbn [mbind result_bind].
  destruct selected.
  - rewrite Hv. cbn [mbind result_bind]. rewrite Hnew.
    eexists _, _. split; [reflexivity|]. cbn [old_v_indexes old_new_verts].
    split; [by apply split_inv_push|]. split; [split|split].
    + cbn [old_v_indexes old_new_verts]. intros i' j' Hj'.
      apply lookup_app_l_Some. by apply Hdict.
    + cbn [old_v_indexes old_new_verts]. intros p i' Hp Hfalse.
      apply lookup_snoc_Some in Hp as [[_ Hp]|[_ <-]]; [by apply Honce|].
      congruence.
    + by apply prefix_app_r.
    + by apply list_lookup_middle.
  - destruct (old_new_verts st !! i) as [j|] eqn:Hj.
    + eexists _, _. split; [reflexivity|]. split; [exact Hinv|].
      split; [by split|]. split; [done|]. by apply Hdict.
    + rewrite Hv. cbn [mbind result_bind]. rewrite Hnew.
      eexists _, _. split; [reflexivity|]. cbn [old_v_indexes old_new_verts].
      split; [|split; [split|split]].
      * apply split_inv_push; [done..|].
        apply map_Forall_insert_2; [|exact Hgrow]. lia.
      * cbn [old_v_indexes old_new_verts]. intros i' j' Hj'.
        apply lookup_insert_Some in Hj' as [[<- <-]|[Hne Hj']].
        -- by apply list_lookup_middle.
        -- apply lookup_app_l_Some. by apply Hdict.
      * cbn [old_v_indexes old_new_verts]. intros p i' Hp Hfalse.
        apply lookup_snoc_Some in Hp as [[_ Hp]|[-> <-]].
        -- destruct (decide (i = i')) as [<-|Hne].
           ++ rewrite (Honce p i Hp Hfalse) in Hj. done.
           ++ rewrite lookup_insert_ne by done. by apply Honce.
        -- by rewrite lookup_insert_eq.
      * by apply prefix_app_r.
      * by apply list_lookup_middle.
Qed.

Lemma corners_from_prefix (old_v old_v' : list Z) (face : list Z)
    (new_face : list nat) :
  old_v `prefix_of` old_v' →
  corners_from old_v face new_face → corners_from old_v' face new_face.
Proof.
  intros Hpre. unfold corners_from. intros Hc.
  eapply Forall2_impl; [exact Hc|].
  intros i j Hj. exact (prefix_lookup_Some _ _ _ _ Hj Hpre).
Qed.

Lemma split_vertices_track verts (selected_verts : list bool) (face : list Z) :
  length selected_verts = length verts →
  Forall (py_index (length verts)) face →
  ∀ st (new_face : list nat),
    split_inv verts st →
    split_tracks selected_verts st →
    ∃ st' added,
      for_each (split_vertex verts selected_verts) face (st, new_face) =
        Ok (st', new_face ++ added) ∧
      split_inv verts st' ∧
      split_tracks selected_verts st' ∧
      old_v_indexes st `prefix_of` old_v_indexes st' ∧
      corners_from (old_v_indexes st') face added.
Proof.
  intros Hsel Hface.
  induction Hface as [|i face Hi _ IH]; intros st new_face Hinv Htr.
  - exists st, []. rewrite app_nil_r.
    split; [reflexivity|]. split; [exact Hinv|]. split; [exact Htr|].
    split; [done|constructor].
  - destruct (split_vertex_track verts selected_verts st new_face i)
      as (st1 & j & Hstep & Hinv1 & Htr1 & Hpre1 & Hj); auto.
    destruct (IH st1 (new_face ++ [j]) Hinv1 Htr1)
      as (st2 & added & Hrest & Hinv2 & Htr2 & Hpre2 & Hadded).
    exists st2, (j :: added).
    cbn [for_each]. rewrite Hstep. cbn [mbind result_bind].
    rewrite Hrest, <- app_assoc. cbn [app].
    split; [reflexivity|]. split; [exact Hinv2|]. split; [exact Htr2|].
    split; [by etrans|].
    constructor; [exact (prefix_lookup_Some _ _ _ _ Hj Hpre2)|exact Hadded].
Qed.

Lemma split_faces_track verts (selected_verts : list bool)
    (faces : list (list Z)) :
  length selected_verts = length verts →
  Forall (Forall (py_index (length verts))) faces →
  ∀ st (out_faces : list (list nat)),
    split_inv verts st →
    split_tracks selected_verts st →
    ∃ st' added,
      for_each (split_face verts selected_verts) faces (st, out_faces) =
        Ok (st', out_faces ++ added) ∧
      split_inv verts st' ∧
      split_tracks selected_verts st' ∧
      old_v_indexes st `prefix_of` old_v_indexes st' ∧
      Forall2 (corners_from (old_v_indexes st')) faces added.
Proof.
  intros Hsel Hfaces.
  induction Hfaces as [|face faces Hface _ IH]; intros st out_faces Hinv Htr.
  - exists st, []. rewrite app_nil_r.
    split; [reflexivity|]. split; [exact Hinv|]. split; [exact Htr|].
    split; [done|constructor].
  - destruct (split_vertices_track verts selected_verts face Hsel Hface st []
                Hinv Htr)
      as (st1 & new_face & Hstep & Hinv1 & Htr1 & Hpre1 & Hnew).
    cbn [app] in Hstep.
    destruct (IH st1 (out_faces ++ [new_face]) Hinv1 Htr1)
      as (st2 & added & Hrest & Hinv2 & Htr2 & Hpre2 & Hadded).
    exists st2, (new_face :: added).
    cbn [for_each].
    change (split_face verts selected_verts (st, out_faces) face)
      with ('(st, new_face) ←
              for_each (split_vertex verts selected_verts) face (st, []);
            Ok (st, out_faces ++ [new_face])).
    rewrite Hstep. cbn [mbind result_bind]. rewrite Hrest, <- app_assoc.
    cbn [app].
    split; [reflexivity|]. split; [exact Hinv2|]. split; [exact Htr2|].
    split; [by etrans|].
    constructor; [by eapply corners_from_prefix|exact Hadded].
Qed.

Lemma corners_in_range (old_v : list Z) (faces : list (list Z))
    (out_faces : list (list nat)) :
  Forall2 (corners_from old_v) faces out_faces →
  Forall (Forall (fun j => (j < length old_v)%nat)) out_faces.
Proof.
  induction 1 as [|face new_face faces out_faces Hface _ IH]; constructor; [|done].
  clear IH. induction Hface as [|i j face new_face Hj _ IH]; constructor; [|done].
  by eapply lookup_lt_Some.
Qed.

(** One run of [split_by_vertices] on faces whose indices are in range,
    with everything the loop keeps. *)
Lemma split_by_vertices_run verts (edges : option (list (Z * Z)))
    (faces : option (list (list Z))) (selected_verts : option (list bool)) :
  Forall (Forall (py_index (length verts))) (default [] faces) →
  ∃ st out_faces out_edges old_e,
    split_by_vertices verts edges faces selected_verts =
      Ok (out_verts st, out_edges, out_faces, old_v_indexes st, old_e,
          seq 0 (length (default [] faces))) ∧
    split_inv verts st ∧
    split_tracks (selection_of verts selected_verts) st ∧
    Forall2 (corners_from (old_v_indexes st)) (default [] faces) out_faces ∧
    split_edges edges out_faces (old_v_indexes st) = Ok (out_edges, old_e).
Proof.
  intros Hfaces. rewrite split_by_vertices_unfold.
  destruct (split_faces_track verts (selection_of verts selected_verts)
              (default [] faces) (length_selection_of _ _) Hfaces
              {| out_verts := []; old_v_indexes := []; old_new_verts := ∅ |} [])
    as (st & out_faces & Hloop & Hinv & Htr & _ & Hcorners).
  { split; cbn; [done| |apply map_Forall_empty]. intros p v Hp.
    by rewrite lookup_nil in Hp. }
  { split; cbn.
    - intros i j Hj. by rewrite lookup_empty in Hj.
    - intros p i Hp. by rewrite lookup_nil in Hp. }
  cbn [app] in Hloop. rewrite Hloop. cbn [mbind result_bind].
  destruct (split_edges_ok edges out_faces (old_v_indexes st))
    as (out_edges & old_e & Hedges).
  { by eapply corners_in_range. }
  rewrite Hedges. cbn [mbind result_bind].
  by exists st, out_faces, out_edges, old_e.
Qed.

(** X1.  Reading the returned faces through [old_v_indexes] gives the
    input faces back: for the k-th corner [j] of the i-th returned face,
    [old_v_indexes[j]] is the k-th corner of the i-th input face. *)
Theorem split_faces_map_back verts (edges : option (list (Z * Z)))
    (faces : option (list (list Z))) (selected_verts : option (list bool)) :
  Forall (Forall (py_index (length verts))) (default [] faces) →
  ∃ out_vs out_edges out_faces old_v old_e old_f,
    split_by_vertices verts edges faces selected_verts =
      Ok (out_vs, out_edges, out_faces, old_v, old_e, old_f) ∧
    Forall2 (fun face new_face =>
               Forall2 (fun i j => old_v !! j = Some i) face new_face)
            (default [] faces) out_faces ∧
    old_f = seq 0 (length (default [] faces)).
Proof.
  intros Hfaces.
  destruct (split_by_vertices_run verts edges faces selected_verts Hfaces)
    as (st & out_faces & out_edges & old_e & Hrun & _ & _ & Hcorners & _).
  eexists _, _, _, _, _, _. split; [exact Hrun|]. split; [exact Hcorners|done].
Qed.

(** X2.  One copy is kept per index of a vertex that is not selected:
    two returned vertices that come from the same input index [i], with
    [selected_verts[i]] false, are the same returned vertex; and two face
    corners that are written with the same index [i] of such a vertex get
    the same returned vertex, so that faces sharing it still share it.
    The copies are kept by the index as it is written in the faces. *)
Theorem split_unselected_copied_once verts (edges : option (list (Z * Z)))
    (faces : option (list (list Z))) (selected_verts : option (list bool)) :
  Forall (Forall (py_index (length verts))) (default [] faces) →
  ∃ out_vs out_edges out_faces old_v old_e old_f,
    split_by_vertices verts edges faces selected_verts =
      Ok (out_vs, out_edges, out_faces, old_v, old_e, old_f) ∧
    (∀ p q i,
       old_v !! p = Some i → old_v !! q = Some i →
       py_getitem (selection_of verts selected_verts) i = Ok false →
       p = q) ∧
    (∀ f1 f2 face1 face2 new1 new2 a b i,
       default [] faces !! f1 = Some face1 →
       default [] faces !! f2 = Some face2 →
       out_faces !! f1 = Some new1 → out_faces !! f2 = Some new2 →
       face1 !! a = Some i → face2 !! b = Some i →
       py_getitem (selection_of verts selected_verts) i = Ok false →
       ∃ p, new1 !! a = Some p ∧ new2 !! b = Some p).
Proof.
  intros Hfaces.
  destruct (split_by_vertices_run verts edges faces selected_verts Hfaces)
    as (st & out_faces & out_edges & old_e & Hrun & _ & [_ Honce] & Hcorners & _).
  eexists _, _, _, _, _, _. split; [exact Hrun|].
  assert (Hsame : ∀ p q i,
    old_v_indexes st !! p = Some i → old_v_indexes st !! q = Some i →
    py_getitem (selection_of verts selected_verts) i = Ok false → p = q).
  { intros p q i Hp Hq Hfalse.
    pose proof (Honce p i Hp Hfalse) as Hp'.
    pose proof (Honce q i Hq Hfalse) as Hq'. congruence. }
  split; [exact Hsame|].
  intros f1 f2 face1 face2 new1 new2 a b i Hf1 Hf2 Hn1 Hn2 Ha Hb Hfalse.
  pose proof (Forall2_lookup_lr _ _ _ _ _ _ Hcorners Hf1 Hn1) as Hc1.
  pose proof (Forall2_lookup_lr _ _ _ _ _ _ Hcorners Hf2 Hn2) as Hc2.
  unfold corners_from in Hc1, Hc2.
  destruct (Forall2_lookup_l _ _ _ _ _ Hc1 Ha) as (p & Hp & Hpi).
  destruct (Forall2_lookup_l _ _ _ _ _ Hc2 Hb) as (q & Hq & Hqi).
  exists p. split; [exact Hp|].
  by rewrite (Hsame p q i Hpi Hqi Hfalse).
Qed.

(** *** Everything selected *)

Lemma split_vertex_selected verts (selected_verts : list bool) st
    (new_face : list nat) (i : Z) (v : V) :
  py_getitem selected_verts i = Ok true →
  py_getitem verts i = Ok v →
  split_vertex verts selected_verts (st, new_face) i =
    Ok ({| out_verts := out_verts st ++ [v];
           old_v_indexes := old_v_indexes st ++ [i];
           old_new_verts := old_new_verts st |},
        new_face ++ [length (out_verts st)]).
Proof.
  intros Hs Hv. unfold split_vertex. rewrite Hs. cbn [mbind result_bind].
  rewrite Hv. cbn [mbind result_bind].
  replace (length (out_verts st ++ [v]) - 1)%nat with (length (out_verts st));
    [reflexivity|].
  rewrite length_app. cbn. lia.
Qed.

Lemma all_selected_getitem (selected_verts : list bool) (i : Z) :
  Forall (fun b => b = true) selected_verts →
  py_index (length selected_verts) i →
  py_getitem selected_verts i = Ok true.
Proof.
  intros Hall Hi. destruct (py_getitem_py_index selected_verts i Hi) as [b Hb].
  rewrite Hb. f_equal.
  apply py_getitem_elem in Hb. rewrite Forall_forall in Hall. by apply Hall.
Qed.

Lemma split_vertices_all_selected verts (selected_verts : list bool)
    (face : list Z) :
  length selected_verts = length verts →
  Forall (fun b => b = true) selected_verts →
  Forall (py_index (length verts)) face →
  ∀ st (new_face : list nat),
    ∃ st',
      for_each (split_vertex verts selected_verts) face (st, new_face) =
        Ok (st', new_face ++ seq (length (out_verts st)) (length face)) ∧
      old_v_indexes st' = old_v_indexes st ++ face ∧
      length (out_verts st') = (length (out_verts st) + length face)%nat.
Proof.
  intros Hsel Hall Hface.
  induction Hface as [|i face Hi _ IH]; intros st new_face.
  - exists st. cbn. rewrite !app_nil_r. split; [done|]. split; [done|lia].
  - destruct (py_getitem_py_index verts i Hi) as [v Hv].
    cbn [for_each].
    rewrite (split_vertex_selected verts selected_verts st new_face i v);
      [|apply all_selected_getitem; [done|by rewrite Hsel]|done].
    cbn [mbind result_bind].
    destruct (IH {| out_verts := out_verts st ++ [v];
                    old_v_indexes := old_v_indexes st ++ [i];
                    old_new_verts := old_new_verts st |}
                 (new_face ++ [length (out_verts st)]))
      as (st' & Hrun & Hold & Hlen).
    cbn [out_verts old_v_indexes] in Hrun, Hold, Hlen.
    rewrite length_app in Hrun, Hlen. cbn [length] in Hrun, Hlen.
    exists st'. rewrite Hrun, <- !app_assoc. cbn [app seq length].
    split; [|split].
    + by rewrite Nat.add_1_r.
    + by rewrite Hold, <- app_assoc.
    + lia.
Qed.

Lemma split_faces_all_selected verts (selected_verts : list bool)
    (faces : list (list Z)) :
  length selected_verts = length verts →
  Forall (fun b => b = true) selected_verts →
  Forall (Forall (py_index (length verts))) faces →
  ∀ st (out_faces : list (list nat)),
    ∃ st' added,
      for_each (split_face verts selected_verts) faces (st, out_faces) =
        Ok (st', out_faces ++ added) ∧
      concat added = seq (length (out_verts st)) (length (concat faces)) ∧
      old_v_indexes st' = old_v_indexes st ++ concat faces ∧
      length (out_verts st') = (length (out_verts st) + length (concat faces))%nat.
Proof.
  intros Hsel Hall Hfaces.
  induction Hfaces as [|face faces Hface _ IH]; intros st out_faces.
  - exists st, []. cbn. rewrite !app_nil_r. split; [done|]. split; [done|].
    split; [done|lia].
  - destruct (split_vertices_all_selected verts selected_verts face Hsel Hall
                Hface st []) as (st1 & Hstep & Hold1 & Hlen1).
    cbn [app] in Hstep.
    destruct (IH st1 (out_faces ++ [seq (length (out_verts st)) (length face)]))
      as (st2 & added & Hrest & Hcat & Hold2 & Hlen2).
    exists st2, (seq (length (out_verts st)) (length face) :: added).
    cbn [for_each].
    change (split_face verts selected_verts (st, out_faces) face)
      with ('(st, new_face) ←
              for_each (split_vertex verts selected_verts) face (st, []);
            Ok (st, out_faces ++ [new_face])).
    rewrite Hstep. cbn [mbind result_bind]. rewrite Hrest, <- app_assoc.
    cbn [app concat]. rewrite length_app.
    split; [reflexivity|]. split; [|split].
    + rewrite Hcat, Hlen1. by rewrite seq_app.
    + by rewrite Hold2, Hold1, <- app_assoc.
    + lia.
Qed.

(** X3.  When every vertex is selected (no selection given, or one that
    is true throughout), every corner of every face gets a vertex of its
    own: the returned faces number the returned vertices 0, 1, 2, ... in
    the order of the corners, there are as many returned vertices as
    corners, and [old_v_indexes] is the list of the corners. *)
Theorem split_all_selected_fresh_corners verts (edges : option (list (Z * Z)))
    (faces : option (list (list Z))) (selected_verts : option (list bool)) :
  Forall (Forall (py_index (length verts))) (default [] faces) →
  Forall (fun b => b = true) (selection_of verts selected_verts) →
  ∃ out_vs out_edges out_faces old_v old_e old_f,
    split_by_vertices verts edges faces selected_verts =
      Ok (out_vs, out_edges, out_faces, old_v, old_e, old_f) ∧
    concat out_faces = seq 0 (length (concat (default [] faces))) ∧
    old_v = concat (default [] faces) ∧
    length out_vs = length (concat (default [] faces)).
Proof.
  intros Hfaces Hall. rewrite split_by_vertices_unfold.
  destruct (split_faces_all_selected verts (selection_of verts selected_verts)
              (default [] faces) (length_selection_of _ _) Hall Hfaces
              {| out_verts := []; old_v_indexes := []; old_new_verts := ∅ |} [])
    as (st & out_faces & Hloop & Hcat & Hold & Hlen).
  cbn [app out_verts old_v_indexes length] in Hloop, Hcat, Hold, Hlen.
  rewrite Hloop. cbn [mbind result_bind].
  destruct (split_edges_ok edges out_faces (old_v_indexes st))
    as (out_edges & old_e & Hedges).
  { rewrite Hold. apply Forall_forall. intros new_face Hnew.
    apply Forall_forall. intros j Hj.
    assert (Hin : j ∈ concat out_faces).
    { apply list_elem_of_In, in_concat. exists new_face.
      split; by apply list_elem_of_In. }
    rewrite Hcat in Hin. apply elem_of_seq in Hin. lia. }
  rewrite Hedges. cbn [mbind result_bind].
  eexists _, _, _, _, _, _. split; [reflexivity|]. by split.
Qed.

(** *** Indices out of range *)

Lemma split_vertex_Ok_index verts (selected_verts : list bool)
    (acc acc' : SplitState (V := V) * list nat) (i : Z) :
  split_vertex verts selected_verts acc i = Ok acc' →
  py_index (length selected_verts) i.
Proof.
  destruct acc as [st new_face]. unfold split_vertex. intros Hstep.
  apply bind_Ok_inv in Hstep as (b & Hb & _).
  by eapply py_getitem_Ok_index.
Qed.

Lemma split_vertex_Raise verts (selected_verts : list bool)
    (acc : SplitState (V := V) * list nat) (i : Z) (e : exn) :
  split_vertex verts selected_verts acc i = Raise e → e = IndexError.
Proof.
  destruct acc as [st new_face]. unfold split_vertex. intros Hstep.
  destruct (py_getitem selected_verts i) as [b|e1] eqn:Hb.
  - cbn in Hstep. destruct b.
    + destruct (py_getitem verts i) as [v|e2] eqn:Hv; [done|].
      injection Hstep as <-. by eapply py_getitem_Raise.
    + destruct (old_new_verts st !! i); [done|].
      destruct (py_getitem verts i) as [v|e2] eqn:Hv; [done|].
      injection Hstep as <-. by eapply py_getitem_Raise.
  - injection Hstep as <-. by eapply py_getitem_Raise.
Qed.

Lemma split_face_Ok_index verts (selected_verts : list bool)
    (acc acc' : SplitState (V := V) * list (list nat)) (face : list Z) :
  split_face verts selected_verts acc face = Ok acc' →
  Forall (py_index (length selected_verts)) face.
Proof.
  destruct acc as [st out_faces]. unfold split_face. intros Hstep.
  apply bind_Ok_inv in Hstep as (r & Hr & _).
  eapply for_each_Ok_Forall; [|exact Hr].
  intros s x s'. apply split_vertex_Ok_index.
Qed.

Lemma split_face_Raise verts (selected_verts : list bool)
    (acc : SplitState (V := V) * list (list nat)) (face : list Z) (e : exn) :
  split_face verts selected_verts acc face = Raise e → e = IndexError.
Proof.
  destruct acc as [st out_faces]. unfold split_face. intros Hstep.
  destruct (for_each (split_vertex verts selected_verts) face (st, []))
    as [[st' new_face]|e1] eqn:Hr; [done|].
  injection Hstep as <-.
  eapply (for_each_Raise (fun e => e = IndexError)); [|exact Hr].
  intros s x e. apply split_vertex_Raise.
Qed.

(** X4.  A face with an index that no subscript of [verts] accepts makes
    [split_by_vertices] raise IndexError, whatever the selection and the
    edges are; nothing is returned. *)
Theorem split_index_out_of_range verts (edges : option (list (Z * Z)))
    (faces : option (list (list Z))) (selected_verts : option (list bool)) :
  Exists (Exists (fun i => ¬ py_index (length verts) i)) (default [] faces) →
  split_by_vertices verts edges faces selected_verts = Raise IndexError.
Proof.
  intros Hbad. rewrite split_by_vertices_unfold.
  destruct (for_each (split_face verts (selection_of verts selected_verts))
              (default [] faces)
              ({| out_verts := []; old_v_indexes := []; old_new_verts := ∅ |}, []))
    as [[st out_faces]|e] eqn:Hloop.
  - exfalso.
    assert (Hok : Forall (Forall (py_index (length verts))) (default [] faces)).
    { eapply for_each_Ok_Forall; [|exact Hloop].
      intros s face s' Hface. rewrite <- (length_selection_of verts selected_verts).
      by eapply split_face_Ok_index. }
    apply Exists_exists in Hbad as (face & Hface & Hbad).
    apply Exists_exists in Hbad as (i & Hi & Hbad).
    rewrite Forall_forall in Hok. specialize (Hok face Hface).
    rewrite Forall_forall in Hok. by apply Hbad, Hok.
  - cbn [mbind result_bind]. f_equal.
    eapply (for_each_Raise (fun e => e = IndexError)); [|exact Hloop].
    intros s face e'. apply split_face_Raise.
Qed.

(** *** The edges *)

Lemma zip_seq_lookup {A} (l : list A) (k i : nat) (a : A) :
  (i, a) ∈ zip (seq k (length l)) l → (k ≤ i)%nat ∧ l !! (i - k)%nat = Some a.
Proof.
  revert k. induction l as [|b l IH]; intros k Hin; cbn in Hin.
  - by apply elem_of_nil in Hin.
  - apply elem_of_cons in Hin as [[= -> ->]|Hin].
    + split; [lia|]. by rewrite Nat.sub_diag.
    + destruct (IH (S k) Hin) as [Hle Hl]. split; [lia|].
      replace (i - k)%nat with (S (i - S k)) by lia. exact Hl.
Qed.

Lemma edge_index_map_lookup (edges : list (Z * Z)) (key : Z * Z) (i : nat) :
  edge_index_map edges !! key = Some i →
  ∃ e, edges !! i = Some e ∧ sorted_edge e.1 e.2 = key.
Proof.
  unfold edge_index_map.
  assert (Hgen : ∀ (l : list (nat * (Z * Z))) (m : gmap (Z * Z) nat),
    (∀ key i, m !! key = Some i →
              ∃ e, edges !! i = Some e ∧ sorted_edge e.1 e.2 = key) →
    (∀ i e, (i, e) ∈ l → edges !! i = Some e) →
    ∀ key i,
      fold_left (fun m '(i, e) => <[sorted_edge e.1 e.2 := i]> m) l m !! key
        = Some i →
      ∃ e, edges !! i = Some e ∧ sorted_edge e.1 e.2 = key).
  { induction l as [|[n e] l IH]; intros m Hm Hl key' i' Hlook; [by apply Hm|].
    cbn [fold_left] in Hlook. eapply IH; [| |exact Hlook].
    - intros key'' i'' Hins.
      apply lookup_insert_Some in Hins as [[<- <-]|[_ Hins]]; [|by apply Hm].
      exists e. split; [|done]. apply Hl. apply list_elem_of_here.
    - intros i'' e'' Hin. apply Hl. by apply list_elem_of_further. }
  apply Hgen.
  - intros key' i' Hempty. by rewrite lookup_empty in Hempty.
  - intros i' e Hin. apply zip_seq_lookup in Hin as [_ Hin].
    by rewrite Nat.sub_0_r in Hin.
Qed.

Lemma py_getitem_of_nat {A} (l : list A) (n : nat) (a : A) :
  py_getitem l (Z.of_nat n) = Ok a → l !! n = Some a.
Proof.
  unfold py_getitem.
  destruct (Z.ltb_spec (Z.of_nat n) 0); [lia|].
  destruct (Z.ltb_spec (Z.of_nat n) 0); [lia|].
  rewrite Nat2Z.id. destruct (l !! n); [congruence|done].
Qed.

(** X5.  [old_e_indexes] has one entry per returned edge.  The entry of a
    returned edge [(a, b)] is either -1 or the position of an input edge
    that joins the same two input vertices as [(a, b)] does, the order of
    the two ends left aside. *)
Theorem split_old_edge_indexes verts (edges : option (list (Z * Z)))
    (faces : option (list (list Z))) (selected_verts : option (list bool)) :
  Forall (Forall (py_index (length verts))) (default [] faces) →
  ∃ out_vs out_edges out_faces old_v old_e old_f,
    split_by_vertices verts edges faces selected_verts =
      Ok (out_vs, out_edges, out_faces, old_v, old_e, old_f) ∧
    length old_e = length out_edges ∧
    ∀ k a b, out_edges !! k = Some (a, b) →
      ∃ ia ib, old_v !! a = Some ia ∧ old_v !! b = Some ib ∧
        (old_e !! k = Some (-1)%Z ∨
         ∃ i e, old_e !! k = Some (Z.of_nat i) ∧
                default [] edges !! i = Some e ∧
                sorted_edge e.1 e.2 = sorted_edge ia ib).
Proof.
  intros Hfaces.
  destruct (split_by_vertices_run verts edges faces selected_verts Hfaces)
    as (st & out_faces & out_edges & old_e & Hrun & _ & _ & _ & Hedges).
  eexists _, _, _, _, _, _. split; [exact Hrun|].
  unfold split_edges in Hedges.
  destruct edges as [[|e0 edges]|].
  1, 3: injection Hedges as <- <-; split; [done|];
        intros k a b Hk; by rewrite lookup_nil in Hk.
  apply bind_Ok_inv in Hedges as (old & Hold & Hret).
  injection Hret as <- <-.
  apply comprehension_Ok_Forall2 in Hold.
  split; [symmetry; by eapply Forall2_length|].
  intros k a b Hk.
  destruct (Forall2_lookup_l _ _ _ _ _ Hold Hk) as (y & Hy & Hstep).
  cbn [fst snd] in Hstep.
  apply bind_Ok_inv in Hstep as (ia & Hia & Hstep).
  apply bind_Ok_inv in Hstep as (ib & Hib & Hstep).
  injection Hstep as <-.
  exists ia, ib. split; [by apply py_getitem_of_nat|].
  split; [by apply py_getitem_of_nat|].
  destruct (edge_index_map (e0 :: edges) !! sorted_edge ia ib) as [i|] eqn:Hi.
  - right. destruct (edge_index_map_lookup _ _ _ Hi) as (e & He & Hkey).
    exists i, e. split; [exact Hy|]. split; [exact He|exact Hkey].
  - left. exact Hy.
Qed.

End Tracking.

(** *** The node function *)

Section SplitNode.
Context `{UtilsSpec} {V : Type} `{NodeUtils V}.

(** X6.  Splitting by vertices through the node function: with vertices
    to split and faces whose indices are in range, the node returns for
    [split_type] VERTS whatever the mask is, provided the conversion of
    the mask, which is asked for when the mask mode is not BY_VERTEX,
    returns; the returned faces refer to returned vertices and, read
    through [old_v_indexes], are the input faces. *)
Theorem split_node_by_vertices (vertices : list V)
    (edges : option (list (Z * Z))) (faces : option (list (list Z)))
    (mask : option (list bool)) (mask_mode : string) :
  vertices ≠ [] →
  Forall (Forall (py_index (length vertices))) (default [] faces) →
  (mask_mode ≠ "BY_VERTEX" →
   ∃ masks,
     mask_converter_node vertices (default [] edges) (default [] faces) None
       (if String.eqb mask_mode "BY_EDGE" then Some (default [] mask) else None)
       (if String.eqb mask_mode "BY_FACE" then Some (default [] mask) else None)
       mask_mode = Ok masks) →
  ∃ out_vs out_edges out_faces old_v old_e old_f,
    split_mesh_elements_node (Some vertices) edges faces mask mask_mode "VERTS" =
      Ok (out_vs, out_edges, out_faces, old_v, old_e, old_f) ∧
    length old_v = length out_vs ∧
    Forall (Forall (fun j => (j < length out_vs)%nat)) out_faces ∧
    Forall2 (fun face new_face =>
               Forall2 (fun i j => old_v !! j = Some i) face new_face)
            (default [] faces) out_faces.
Proof.
  intros Hne Hfaces Hconv. destruct vertices as [|v vertices]; [done|].
  cbn [split_mesh_elements_node]. cbn [String.eqb Ascii.eqb Bool.eqb].
  cbv zeta.
  assert (Hmask : ∃ m,
    (if negb (String.eqb mask_mode "BY_VERTEX") then
       masks ← mask_converter_node (v :: vertices) (default [] edges)
         (default [] faces) None
         (if String.eqb mask_mode "BY_EDGE" then Some (default [] mask) else None)
         (if String.eqb mask_mode "BY_FACE" then Some (default [] mask) else None)
         mask_mode;
       Ok masks.1.1
     else Ok (default [] mask)) = Ok m).
  { destruct (String.eqb_spec mask_mode "BY_VERTEX") as [_|Hmode]; cbn [negb].
    - by eexists.
    - destruct (Hconv Hmode) as [masks ->]. by eexists. }
  destruct Hmask as [m ->]. cbn [mbind result_bind].
  match goal with
  | |- context [split_by_vertices ?vs ?es ?fs ?sel] =>
      destruct (split_by_vertices_run vs es fs sel)
        as (st & out_faces & out_edges & old_e & Hrun & Hinv & _ & Hcorners & _);
        [done|]
  end.
  eexists _, _, _, _, _, _. split; [exact Hrun|].
  split; [apply Hinv|]. split; [|exact Hcorners].
  rewrite <- (inv_length _ _ Hinv). by eapply corners_in_range.
Qed.

(** X7.  The test for no vertices comes before the test of the split
    type: a split type other than VERTS and EDGES raises TypeError when
    there are vertices, and goes unnoticed, six empty lists being
    returned, when there are none. *)
Theorem split_node_unknown_type (vertices : option (list V))
    (edges : option (list (Z * Z))) (faces : option (list (list Z)))
    (mask : option (list bool)) (mask_mode split_type : string) :
  split_type ≠ "VERTS" → split_type ≠ "EDGES" →
  split_mesh_elements_node vertices edges faces mask mask_mode split_type =
    match vertices with
    | None | Some [] => Ok ([], [], [], [], [], [])
    | Some (_ :: _) => Raise TypeError
    end.
Proof.
  intros Hv He. unfold split_mesh_elements_node.
  destruct vertices as [[|v vertices]|]; [done| |done].
  destruct (String.eqb_spec split_type "VERTS"); [done|].
  destruct (String.eqb_spec split_type "EDGES"); [done|]. reflexivity.
Qed.

End SplitNode.

Lemma split_two_triangles_valid :
  Forall (Forall (py_index 4)) [[0; 1; 2]; [2; 1; 3]]%Z.
Proof. repeat constructor; unfold py_index; lia. Qed.

(** Two triangles sharing the edge between the vertices 1 and 2. *)
Lemma split_faces_map_back_witness :
  ∃ out_vs out_edges out_faces old_v old_e old_f,
    split_by_vertices (H := example_utils) [10; 11; 12; 13]%nat
                      (Some [(0, 1); (1, 2)]%Z)
                      (Some [[0; 1; 2]; [2; 1; 3]]%Z)
                      (Some [true; false; false; true]) =
      Ok (out_vs, out_edges, out_faces, old_v, old_e, old_f) ∧
    Forall2 (fun face new_face =>
               Forall2 (fun i j => old_v !! j = Some i) face new_face)
            [[0; 1; 2]; [2; 1; 3]]%Z out_faces ∧
    old_f = [0; 1]%nat.
Proof.
  exact (split_faces_map_back (H := example_utils) (H0 := example_utils_spec)
           [10; 11; 12; 13]%nat (Some [(0, 1); (1, 2)]%Z)
           (Some [[0; 1; 2]; [2; 1; 3]]%Z) (Some [true; false; false; true])
           split_two_triangles_valid).
Defined.

Lemma split_unselected_copied_once_witness :
  ∃ out_vs out_edges out_faces old_v old_e old_f,
    split_by_vertices (H := example_utils) [10; 11; 12; 13]%nat
                      (Some [(0, 1); (1, 2)]%Z)
                      (Some [[0; 1; 2]; [2; 1; 3]]%Z)
                      (Some [true; false; false; true]) =
      Ok (out_vs, out_edges, out_faces, old_v, old_e, old_f) ∧
    (∀ p q i,
       old_v !! p = Some i → old_v !! q = Some i →
       py_getitem [true; false; false; true] i = Ok false →
       p = q) ∧
    (∀ f1 f2 face1 face2 new1 new2 a b i,
       [[0; 1; 2]; [2; 1; 3]]%Z !! f1 = Some face1 →
       [[0; 1; 2]; [2; 1; 3]]%Z !! f2 = Some face2 →
       out_faces !! f1 = Some new1 → out_faces !! f2 = Some new2 →
       face1 !! a = Some i → face2 !! b = Some i →
       py_getitem [true; false; false; true] i = Ok false →
       ∃ p, new1 !! a = Some p ∧ new2 !! b = Some p).
Proof.
  exact (split_unselected_copied_once (H := example_utils)
           (H0 := example_utils_spec)
           [10; 11; 12; 13]%nat (Some [(0, 1); (1, 2)]%Z)
           (Some [[0; 1; 2]; [2; 1; 3]]%Z) (Some [true; false; false; true])
           split_two_triangles_valid).
Defined.

(** The copies are kept by index as written: of three vertices none of
    which is selected, the last one, written 2 in one face and -1 in the
    other, is copied once for each of the two indices. *)
Lemma split_negative_index_second_copy :
  split_by_vertices (H := example_utils) [10; 11; 12]%nat None
                    (Some [[0; 1; 2]; [0; 1; -1]]%Z)
                    (Some [false; false; false]) =
    Ok ([10; 11; 12; 12]%nat, [], [[0; 1; 2]; [0; 1; 3]]%nat,
        [0; 1; 2; -1]%Z, [], [0; 1]%nat).
Proof. vm_compute. reflexivity. Qed.

(** No selection given: six corners, six vertices. *)
Lemma split_all_selected_witness :
  ∃ out_vs out_edges out_faces old_v old_e old_f,
    split_by_vertices (H := example_utils) [10; 11; 12; 13]%nat None
                      (Some [[0; 1; 2]; [2; 1; 3]]%Z) None =
      Ok (out_vs, out_edges, out_faces, old_v, old_e, old_f) ∧
    concat out_faces = [0; 1; 2; 3; 4; 5]%nat ∧
    old_v = [0; 1; 2; 2; 1; 3]%Z ∧
    length out_vs = 6%nat.
Proof.
  apply (split_all_selected_fresh_corners (H := example_utils)
           (H0 := example_utils_spec)
           [10; 11; 12; 13]%nat None (Some [[0; 1; 2]; [2; 1; 3]]%Z) None
           split_two_triangles_valid).
  repeat constructor.
Defined.

(** A triangle that names a fifth vertex of four. *)
Lemma split_index_out_of_range_witness :
  split_by_vertices (H := example_utils) [10; 11; 12; 13]%nat None
                    (Some [[0; 1; 4]]%Z) None = Raise IndexError.
Proof.
  apply (split_index_out_of_range (H := example_utils)
           (H0 := example_utils_spec)).
  apply Exists_cons_hd. do 2 apply Exists_cons_tl. apply Exists_cons_hd.
  unfold py_index. cbn. lia.
Defined.

Lemma split_old_edge_indexes_witness :
  ∃ out_vs out_edges out_faces old_v old_e old_f,
    split_by_vertices (H := example_utils) [10; 11; 12; 13]%nat
                      (Some [(0, 1); (1, 2)]%Z)
                      (Some [[0; 1; 2]; [2; 1; 3]]%Z)
                      (Some [true; false; false; true]) =
      Ok (out_vs, out_edges, out_faces, old_v, old_e, old_f) ∧
    length old_e = length out_edges.
Proof.
  destruct (split_old_edge_indexes (H := example_utils)
              (H0 := example_utils_spec)
              [10; 11; 12; 13]%nat (Some [(0, 1); (1, 2)]%Z)
              (Some [[0; 1; 2]; [2; 1; 3]]%Z) (Some [true; false; false; true])
              split_two_triangles_valid)
    as (out_vs & out_edges & out_faces & old_v & old_e & old_f & Hrun & Hlen & _).
  by exists out_vs, out_edges, out_faces, old_v, old_e, old_f.
Defined.

Lemma split_node_by_vertices_witness :
  ∃ out_vs out_edges out_faces old_v old_e old_f,
    split_mesh_elements_node (H := example_utils)
        (H0 := example_node_utils nat)
        (Some [10; 11; 12; 13]%nat) None (Some [[0; 1; 2]; [2; 1; 3]]%Z)
        (Some [true]) "BY_FACE" "VERTS" =
      Ok (out_vs, out_edges, out_faces, old_v, old_e, old_f) ∧
    length old_v = length out_vs.
Proof.
  destruct (split_node_by_vertices (H := example_utils)
              (H0 := example_utils_spec) (H1 := example_node_utils nat)
              [10; 11; 12; 13]%nat None (Some [[0; 1; 2]; [2; 1; 3]]%Z)
              (Some [true]) "BY_FACE")
    as (out_vs & out_edges & out_faces & old_v & old_e & old_f & Hrun & Hlen & _).
  - done.
  - exact split_two_triangles_valid.
  - intros _. by eexists.
  - by exists out_vs, out_edges, out_faces, old_v, old_e, old_f.
Defined.

Lemma split_node_unknown_type_witness :
  split_mesh_elements_node (H := example_utils) (H0 := example_node_utils nat)
      (Some [10; 11; 12; 13]%nat) None None None "BY_VERTEX" "FACES" =
    Raise TypeError ∧
  split_mesh_elements_node (H := example_utils) (H0 := example_node_utils nat)
      (Some []) None None None "BY_VERTEX" "FACES" =
    Ok ([], [], [], [], [], []).
Proof.
  split.
  - by apply (split_node_unknown_type (H := example_utils)
                (H1 := example_node_utils nat) (Some [10; 11; 12; 13]%nat)).
  - by apply (split_node_unknown_type (H := example_utils)
                (H1 := example_node_utils nat) (Some [])).
Defined.

End SplitMeshProps.

(** ** Properties of the vector field evaluation node *)

Module VectorFieldEvalProps.
Import VectorFieldEval.
Open Scope R_scope.

Lemma evaluate_vertices_few (field : VectorField) (vertices : list (R * R * R))
    (output_numpy : bool) :
  (length vertices < 2)%nat →
  evaluate_vertices output_numpy field vertices =
    Ok (ValueList (map (evaluate_point field) vertices)).
Proof.
  intros Hlen.
  destruct vertices as [|vertex [|vertex' vertices]]; [done|done|].
  cbn in Hlen. lia.
Qed.

(** C10.  For a batch of fewer than two vertices the values put out do
    not depend on [output_numpy]: they are the Python list that holds,
    for each vertex (x, y, z), the tuple of the three numbers
    [field.evaluate(x, y, z)] returns; so the empty list for no vertex
    and a one-element list for one vertex, without error. *)
Theorem C10_small_batches_ignore_output_numpy (field : VectorField)
    (vertices : list (R * R * R)) :
  (length vertices < 2)%nat →
  ∀ output_numpy : bool,
    evaluate_vertices output_numpy field vertices =
      Ok (ValueList
            (map (fun v => PyTuple (evaluate field v.1.1 v.1.2 v.2).1.1
                                   (evaluate field v.1.1 v.1.2 v.2).1.2
                                   (evaluate field v.1.1 v.1.2 v.2).2)
                 vertices)).
Proof.
  intros Hlen output_numpy. rewrite evaluate_vertices_few by done.
  do 2 f_equal. apply map_ext. intros [[x y] z].
  unfold evaluate_point. cbn [fst snd].
  by destruct (evaluate field x y z) as [[a b] c].
Qed.

(** One vertex, evaluated in the field that turns the coordinates. *)
Lemma C10_single_vertex_witness :
  (length [(1, 2, 3)] < 2)%nat ∧
  ∀ output_numpy : bool,
    evaluate_vertices output_numpy turning_field [(1, 2, 3)] =
      Ok (ValueList [PyTuple 2 3 1]).
Proof.
  split; [cbn; lia|].
  apply (C10_small_batches_ignore_output_numpy turning_field [(1, 2, 3)]).
  cbn; lia.
Defined.

(** With two vertices or more the option does matter. *)
Lemma output_numpy_matters_for_two :
  evaluate_vertices true identity_field [(0, 0, 0); (1, 1, 1)] ≠
  evaluate_vertices false identity_field [(0, 0, 0); (1, 1, 1)].
Proof. cbn. discriminate. Qed.

(** Every batch the node processes goes through [evaluate_vertices]. *)
Lemma process_linked (zip_long_repeat :
      list VectorField → list (list (R * R * R)) →
      list (VectorField * list (R * R * R)))
    (output_numpy : bool) (fields_s : list VectorField)
    (vertices_s : list (list (R * R * R))) :
  process zip_long_repeat true output_numpy fields_s vertices_s =
    Some (comprehension (fun '(field, vertices) =>
              evaluate_vertices output_numpy field vertices)
            (zip_long_repeat fields_s vertices_s)).
Proof. reflexivity. Qed.

(** *** Batches of two vertices or more *)

Lemma evaluate_vertices_many (output_numpy : bool) (field : VectorField)
    (vertices : list (R * R * R)) :
  (2 ≤ length vertices)%nat →
  evaluate_vertices output_numpy field vertices =
    let xs := map (fun v => v.1.1) vertices in
    let ys := map (fun v => v.1.2) vertices in
    let zs := map (fun v => v.2) vertices in
    new_vectors ← dstack (evaluate_grid field xs ys zs).1.1
                         (evaluate_grid field xs ys zs).1.2
                         (evaluate_grid field xs ys zs).2;
    if output_numpy then Ok (NdArray new_vectors)
    else
      plane ← py_getitem new_vectors 0;
      Ok (ValueList (map (fun '(x, y, z) => PyList x y z) plane)).
Proof.
  intros Hlen. unfold evaluate_vertices.
  destruct vertices as [|v1 [|v2 vertices]]; [cbn in Hlen; lia..|].
  cbn [length Nat.eqb]. cbv zeta.
  by destruct (evaluate_grid field _ _ _) as [[new_xs new_ys] new_zs].
Qed.

Lemma dstack_cases (xs ys zs : list R) :
  (dstack xs ys zs = Ok [zip (zip xs ys) zs] ∧
   length xs = length ys ∧ length ys = length zs) ∨
  dstack xs ys zs = Raise ValueError.
Proof.
  unfold dstack.
  destruct (Nat.eqb_spec (length xs) (length ys));
    destruct (Nat.eqb_spec (length ys) (length zs)); cbn; auto.
Qed.

(** X8.  For a batch of two vertices or more, the two settings of
    [output_numpy] give the same vectors: when the NumPy output is an
    array, it has the single plane of shape (1, N, 3) and the list output
    is the list of the rows of that plane; when stacking fails, both
    settings raise ValueError. *)
Theorem output_numpy_same_vectors (field : VectorField)
    (vertices : list (R * R * R)) :
  (2 ≤ length vertices)%nat →
  match evaluate_vertices true field vertices with
  | Ok (NdArray [plane]) =>
      evaluate_vertices false field vertices =
        Ok (ValueList (map (fun '(x, y, z) => PyList x y z) plane))
  | Ok _ => False
  | Raise e =>
      e = ValueError ∧ evaluate_vertices false field vertices = Raise ValueError
  end.
Proof.
  intros Hlen. rewrite !evaluate_vertices_many by done. cbv zeta.
  destruct (dstack_cases
              (evaluate_grid field (map (fun v => v.1.1) vertices)
                 (map (fun v => v.1.2) vertices) (map (fun v => v.2) vertices)).1.1
              (evaluate_grid field (map (fun v => v.1.1) vertices)
                 (map (fun v => v.1.2) vertices) (map (fun v => v.2) vertices)).1.2
              (evaluate_grid field (map (fun v => v.1.1) vertices)
                 (map (fun v => v.1.2) vertices) (map (fun v => v.2) vertices)).2)
    as [(-> & _ & _)| ->]; cbn; done.
Qed.

(** X9.  With a field whose grid evaluation keeps the length of its
    arguments, every batch is evaluated without error and gives one
    vector per vertex, for both settings of [output_numpy] and for every
    number of vertices, none and one included. *)
Theorem one_vector_per_vertex (field : VectorField)
    (vertices : list (R * R * R)) (output_numpy : bool) :
  grid_keeps_length field →
  ∃ values,
    evaluate_vertices output_numpy field vertices = Ok values ∧
    values_count values = length vertices.
Proof.
  intros Hgrid.
  destruct (decide (length vertices < 2)%nat) as [Hsmall|Hmany].
  - rewrite evaluate_vertices_few by done. eexists. split; [reflexivity|].
    cbn. by rewrite length_map.
  - rewrite evaluate_vertices_many by lia. cbv zeta.
    destruct (Hgrid (map (fun v => v.1.1) vertices)
                (map (fun v => v.1.2) vertices) (map (fun v => v.2) vertices))
      as (Hx & Hy & Hz); [by rewrite !length_map..|].
    rewrite length_map in Hx, Hy, Hz.
    unfold dstack. rewrite Hx, Hy, Hz, Nat.eqb_refl. cbn [andb mbind result_bind].
    destruct output_numpy.
    + eexists. split; [reflexivity|]. cbn.
      rewrite app_nil_r, !length_zip_with, Hx, Hy, Hz. lia.
    + cbn. eexists. split; [reflexivity|]. cbn.
      rewrite length_map, !length_zip_with, Hx, Hy, Hz. lia.
Qed.

(** *** All the batches *)

Lemma identity_field_keeps_length : grid_keeps_length identity_field.
Proof. intros xs ys zs Hxy Hyz. cbn. split; [done|]. split; congruence. Qed.

Lemma output_numpy_same_vectors_witness :
  (2 ≤ length [(0, 0, 0); (1, 2, 3)])%nat ∧
  evaluate_vertices false identity_field [(0, 0, 0); (1, 2, 3)] =
    Ok (ValueList [PyList 0 0 0; PyList 1 2 3]).
Proof.
  split; [cbn; lia|].
  assert (Hlen : (2 ≤ length [(0, 0, 0); (1, 2, 3)])%nat) by (cbn; lia).
  exact (output_numpy_same_vectors identity_field [(0, 0, 0); (1, 2, 3)] Hlen).
Defined.

Lemma one_vector_per_vertex_witness :
  ∃ values,
    evaluate_vertices true identity_field [(0, 0, 0); (1, 2, 3); (4, 5, 6)] =
      Ok values ∧
    values_count values = 3%nat.
Proof.
  exact (one_vector_per_vertex identity_field
           [(0, 0, 0); (1, 2, 3); (4, 5, 6)] true identity_field_keeps_length).
Defined.

End VectorFieldEvalProps.
